(** * gocw: the Chinese Whispers graph clustering of [chinesewhispers.go]

    A shallow embedding of the Go package [gocw] and the properties of its
    specification.

    Conventions of the embedding.
    - A [uint64] is a [Z] in [[0, 2^64)]; the wrap-around of [maxIdx + 1] and
      of the conversions [int(x)] is written out ([u64], [int_of_u64],
      [int_mul]).  [int] is the 64-bit [int] of the usual Go targets.
    - A [float64] is a primitive binary64 [float].
    - A slice is a [list]; an index out of range is a run-time panic, which
      the embedding renders as [None].  Slice lengths are below [2^63] in Go,
      so [uint64(i)] for a position [i] is the position itself.
    - A Go [map] is a [gmap]; a [range] over a map visits every entry once in
      an order the language leaves unspecified (and the runtime randomises):
      the order is an input of the model ([rangeOrder]).
    - [math/rand]'s global source is an input of the model ([randUint64]):
      the k-th call of [rand.Int63] returns the k-th value, masked to 63
      bits. *)

From Stdlib Require Import ZArith Floats Lia Sorted.
From stdpp Require Import gmap list fin_maps.

Open Scope Z_scope.

(** ** Machine integers *)

Definition two64 : Z := 18446744073709551616.
Definition two63 : Z := 9223372036854775808.

(** The value of a [uint64] expression whose mathematical value is [z]. *)
Definition u64 (z : Z) : Z := z mod two64.

(** [int(x)] for a [uint64] x: the same 64 bits read as two's complement. *)
Definition int_of_u64 (x : Z) : Z := if x <? two63 then x else x - two64.

(** The product of two [int]s, as the machine computes it. *)
Definition int_mul (a b : Z) : Z := int_of_u64 ((a * b) mod two64).

(** [rand.Int63]: the source's 64 bits with the top bit cleared. *)
Definition Int63 (bits : Z) : Z := bits mod two63.

(** ** Edges *)

Record Pair : Type := mkPair { Idx1 : Z; Idx2 : Z; Distance : float }.

Abbreviation Edges := (list Pair) (only parsing).

(** [Edges.Less], on the two elements it compares. *)
Definition Less (a b : Pair) : bool :=
  (Idx1 a <? Idx1 b) || ((Idx1 a =? Idx1 b) && (Idx2 a <? Idx2 b)).

(** [sort.IsSorted]: no element is [Less] than its predecessor. *)
Fixpoint IsSorted (e : Edges) : bool :=
  match e with
  | a :: (b :: _) as rest => negb (Less b a) && IsSorted rest
  | _ => true
  end.

(** Endpoints that are values of type [uint64]. *)
Definition wfPair (p : Pair) : bool :=
  (0 <=? Idx1 p) && (Idx1 p <? two64) && (0 <=? Idx2 p) && (Idx2 p <? two64).

Definition wfEdges (e : Edges) : bool := forallb wfPair e.

(** ** The clustering instance *)

Record ChineseWhispers : Type := mkCW {
  numIterations : Z;
  edges : Edges;
  labels : list Z
}.

Definition NewChineseWhispers (numIterations : Z) : ChineseWhispers :=
  mkCW numIterations [] [].

Definition AddEdge (c : ChineseWhispers) (pair : Pair) : ChineseWhispers :=
  mkCW (numIterations c) (edges c ++ [pair]) (labels c).

Definition setLabels (c : ChineseWhispers) (l : list Z) : ChineseWhispers :=
  mkCW (numIterations c) (edges c) l.

(** ** ensureOrdered *)

Definition zeroPair : Pair := mkPair 0 0 0%float.

(** The body of the [for] loop of [ensureOrdered]: every edge is appended to
    the buffer, followed by its mirror when it is not a self-edge. *)
Fixpoint appendMirrored (ordered src : Edges) : Edges :=
  match src with
  | [] => ordered
  | p :: src' =>
      let ordered := ordered ++ [mkPair (Idx1 p) (Idx2 p) (Distance p)] in
      let ordered :=
        if negb (Idx1 p =? Idx2 p)
        then ordered ++ [mkPair (Idx2 p) (Idx1 p) (Distance p)]
        else ordered in
      appendMirrored ordered src'
  end.

Fixpoint insertEdge (p : Pair) (sorted : Edges) : Edges :=
  match sorted with
  | [] => [p]
  | q :: rest => if Less q p then q :: insertEdge p rest else p :: q :: rest
  end.

(** [sort.Sort] on a buffer: a rearrangement sorted by [Less] (here the one an
    insertion sort gives; Go's sort is not stable, and the buffer is local). *)
Definition sortEdges (e : Edges) : Edges := foldr insertEdge [] e.

(** The local [ordered] of [ensureOrdered] when it returns:
    [make(Edges, len(c.edges)*2)] holds [2*len] zero pairs, the loop appends
    to them, [sort.Sort] sorts the whole buffer. *)
Definition orderedBuffer (e : Edges) : Edges :=
  sortEdges (appendMirrored (replicate (2 * length e) zeroPair) e).

(** [ensureOrdered] has no assignment to [c.edges]: the receiver is returned
    as it came, on both paths. *)
Definition ensureOrdered (c : ChineseWhispers) : ChineseWhispers :=
  if IsSorted (edges c) then c
  else let ordered := orderedBuffer (edges c) in c.

(** ** findNeighbourRanges *)

Abbreviation Range := (Z * Z)%type (only parsing).

Definition maxIdxStep (maxIdx : Z) (p : Pair) : Z :=
  let maxIdx := if Idx1 p >? maxIdx then Idx1 p else maxIdx in
  if Idx2 p >? maxIdx then Idx2 p else maxIdx.

Definition maxIdxOf (e : Edges) : Z := fold_left maxIdxStep e 0.

(** The closure [numNodes] of [findNeighbourRanges]. *)
Definition numNodes (e : Edges) : Z :=
  match e with
  | [] => 0
  | _ => u64 (maxIdxOf e + 1)
  end.

(** The assignment to entry [k] of the ranges, which panics when [k] is out
    of range. *)
Definition setRange (nb : list Range) (k : Z) (r : Range) : option (list Range) :=
  if (0 <=? k) && (k <? Z.of_nat (length nb))
  then Some (<[Z.to_nat k := r]> nb)
  else None.

(** The second loop of [findNeighbourRanges] from position [i] on, over the
    edges that remain; it yields the ranges with [curNode] and [startIdx]. *)
Fixpoint walkEdges (rest : Edges) (i : Z) (nb : list Range) (curNode startIdx : Z)
  : option (list Range * Z * Z) :=
  match rest with
  | [] => Some (nb, curNode, startIdx)
  | p :: rest' =>
      if Idx1 p =? curNode
      then walkEdges rest' (i + 1) nb curNode startIdx
      else
        match setRange nb curNode (startIdx, i) with
        | None => None
        | Some nb' => walkEdges rest' (i + 1) nb' (Idx1 p) i
        end
  end.

Definition findNeighbourRanges (e : Edges) : option (list Range) :=
  let nb := replicate (Z.to_nat (int_of_u64 (numNodes e))) (0, 0) in
  match walkEdges e 0 nb 0 0 with
  | None => None
  | Some (nb, curNode, startIdx) =>
      if negb (Z.of_nat (length nb) =? 0)
      then setRange nb curNode (startIdx, Z.of_nat (length e))
      else Some nb
  end.

(** ** One propagation step *)

(** What the program does not fix: the values of the random source and the
    order in which each [range] over the tally visits its entries. *)
Record Runtime : Type := mkRuntime {
  randUint64 : nat -> Z;
  rangeOrder : nat -> list nat
}.

(** [labelsToCounts[k] += d]; a missing key reads as [0.0]. *)
Definition addCount (m : gmap Z float) (k : Z) (d : float) : gmap Z float :=
  <[k := (default 0%float (m !! k) + d)%float]> m.

(** [for n := start; n != end; n++ { ... c.labels[c.edges[n].Idx2] ... }]
    with [rest] the edges from position [n] on.  The loop ends at [n == end]
    or panics at the first [n] outside the slice. *)
Fixpoint tallyFrom (rest : Edges) (n stop : Z) (lab : list Z) (m : gmap Z float)
  : option (gmap Z float) :=
  if n =? stop then Some m
  else
    match rest with
    | [] => None
    | p :: rest' =>
        match lab !! Z.to_nat (Idx2 p) with
        | None => None
        | Some l => tallyFrom rest' (n + 1) stop lab (addCount m l (Distance p))
        end
    end.

(** The entries of a map in the order a code selects: the k-th number picks
    (modulo what is left) the entry visited k-th; entries left when the code
    ends follow in their listed order.  Every code gives a rearrangement. *)
Fixpoint permute {A : Type} (code : list nat) (l : list A) : list A :=
  match code with
  | [] => l
  | c :: code' =>
      match l with
      | [] => []
      | _ =>
          let i := (c mod length l)%nat in
          match l !! i with
          | Some x => x :: permute code' (delete i l)
          | None => l
          end
      end
  end.

Definition betterEntry (best : float * Z) (kv : Z * float) : float * Z :=
  if (fst best <? snd kv)%float then (snd kv, fst kv) else best.

(** [for k, v := range labelsToCounts { if v > bestScore { ... } }] over the
    entries in visiting order, starting from [(-Inf, c.labels[idx])]. *)
Definition pickBest (visit : list (Z * float)) (own : Z) : Z :=
  snd (fold_left betterEntry visit (neg_infinity, own)).

(** The body of the propagation loop at its [i]-th pass. *)
Definition step (e : Edges) (nb : list Range) (rt : Runtime) (i : nat) (lab : list Z)
  : option (list Z) :=
  let len := Z.of_nat (length nb) in
  if len =? 0 then None
  else
    let idx := Z.to_nat (Z.rem (Int63 (randUint64 rt i)) len) in
    match nb !! idx with
    | None => None
    | Some (start, stop) =>
        match tallyFrom (drop (Z.to_nat start) e) start stop lab ∅ with
        | None => None
        | Some m =>
            match lab !! idx with
            | None => None
            | Some own =>
                let visit := permute (rangeOrder rt i) (map_to_list m) in
                Some (<[idx := pickBest visit own]> lab)
            end
        end
    end.

(** [todo] passes of the loop from pass [i] on; the second component counts
    the passes executed. *)
Fixpoint propagateFrom (e : Edges) (nb : list Range) (rt : Runtime)
  (i todo : nat) (lab : list Z) : option (list Z * nat) :=
  match todo with
  | O => Some (lab, O)
  | S todo' =>
      match step e nb rt i lab with
      | None => None
      | Some lab' =>
          match propagateFrom e nb rt (S i) todo' lab' with
          | None => None
          | Some (lab'', k) => Some (lab'', S k)
          end
      end
  end.

(** The loop bound [len(neighbours)*int(c.numIterations)]; a bound that is
    not positive gives no pass. *)
Definition stepCount (n : nat) (iters : Z) : nat :=
  Z.to_nat (int_mul (Z.of_nat n) (int_of_u64 iters)).

Definition initLabels (n : nat) : list Z := Z.of_nat <$> seq 0 n.

(** ** Compaction *)

(** [labelRemap[c.labels[i]] = uint64(len(labelRemap))] for every [i]. *)
Definition remapStep (m : gmap Z Z) (l : Z) : gmap Z Z := <[l := Z.of_nat (size m)]> m.

Definition buildRemap (lab : list Z) : gmap Z Z := fold_left remapStep lab ∅.

Definition applyRemap (m : gmap Z Z) (lab : list Z) : list Z :=
  (fun l => default 0 (m !! l)) <$> lab.

(** ** Run *)

(** What a call of [Run] leaves: the returned count and the instance, with two
    observations of the run: the number of passes of the propagation loop and
    the label array as it stood before compaction. *)
Record Outcome : Type := mkOutcome {
  clusters : Z;
  instance : ChineseWhispers;
  passes : nat;
  propagated : list Z
}.

Definition Run (rt : Runtime) (c : ChineseWhispers) : option Outcome :=
  let c := ensureOrdered c in
  let c := setLabels c [] in
  if Z.of_nat (length (edges c)) =? 0 then Some (mkOutcome 0 c 0 [])
  else
    match findNeighbourRanges (edges c) with
    | None => None
    | Some nb =>
        let lab := initLabels (length nb) in
        match propagateFrom (edges c) nb rt 0 (stepCount (length nb) (numIterations c)) lab with
        | None => None
        | Some (lab, k) =>
            let labelRemap := buildRemap lab in
            Some (mkOutcome (Z.of_nat (size labelRemap))
                            (setLabels c (applyRemap labelRemap lab)) k lab)
        end
    end.

Definition GetLabel (c : ChineseWhispers) (idx : Z) : option Z := labels c !! Z.to_nat idx.

Definition GetLabels (c : ChineseWhispers) : list Z := labels c.

(** ** Predicates and observations of the statements *)

(** Endpoints small enough for [maxIdx + 1] to be an [int]: the node count
    neither wraps around as a [uint64] nor turns negative in [int(numNodes)]. *)
Definition fitsPair (p : Pair) : bool :=
  (0 <=? Idx1 p) && (Idx1 p <? two63 - 1) && (0 <=? Idx2 p) && (Idx2 p <? two63 - 1).

Definition fitsInt (e : Edges) : bool := forallb fitsPair e.

(** One more pass after a run of the loop: pass [i] applied to what the
    passes before it returned. *)
Definition thenStep (e : Edges) (nb : list Range) (rt : Runtime) (i : nat)
  (r : option (list Z * nat)) : option (list Z * nat) :=
  match r with
  | None => None
  | Some (lab1, k) =>
      match step e nb rt i lab1 with
      | None => None
      | Some lab2 => Some (lab2, S k)
      end
  end.

(** The bound of the propagation loop of [Run] on an instance. *)
Definition loopBound (c : ChineseWhispers) : nat :=
  match findNeighbourRanges (edges c) with
  | Some nb => stepCount (length nb) (numIterations c)
  | None => 0%nat
  end.

(** Ranges that are intervals of positions below [hi]. *)
Definition rangesWithin (hi : Z) (nb : list Range) : Prop :=
  Forall (fun r : Range => 0 <= r.1 <= r.2 /\ r.2 <= hi) nb.

(** The range [r] of node [v] holds exactly the positions of [pre] whose edge
    leaves [v]. *)
Definition rangeHolds (pre : Edges) (v : nat) (r : Range) : Prop :=
  forall j : nat,
    r.1 <= Z.of_nat j < r.2 <-> exists p, pre !! j = Some p /\ Idx1 p = Z.of_nat v.

(** The order of the [from] fields alone. *)
Definition fromLe (a b : Pair) : Prop := Idx1 a <= Idx1 b.

(** The label array holds one node index per node. *)
Definition labelsOK (nb : list Range) (lab : list Z) : Prop :=
  length lab = length nb /\ Forall (fun l => 0 <= l < Z.of_nat (length nb)) lab.

(** ** Instances used as examples *)

(** A runtime whose random source always returns [bits] and whose tallies are
    always visited in the order [code]. *)
Definition constRuntime (bits : Z) (code : list nat) : Runtime :=
  mkRuntime (fun _ => bits) (fun _ => code).

(** The instance a caller gets from [NewChineseWhispers] and one [AddEdge]
    per edge of [e], in order. *)
Definition graphOf (iters : Z) (e : Edges) : ChineseWhispers :=
  fold_left AddEdge e (NewChineseWhispers iters).

Definition rt0 : Runtime := constRuntime 0 [].

Definition unsortedGraph : ChineseWhispers :=
  graphOf 1 [mkPair 2 1 0.5%float; mkPair 0 1 1%float].

Definition pairGraph (iters : Z) : ChineseWhispers :=
  graphOf iters [mkPair 0 1 1%float; mkPair 1 0 1%float].

Definition singleEdge (iters : Z) : ChineseWhispers :=
  graphOf iters [mkPair 0 1 1%float].

Definition triangle : Edges :=
  [mkPair 0 1 1%float; mkPair 0 2 1%float; mkPair 1 0 1%float;
   mkPair 1 2 1%float; mkPair 2 0 1%float; mkPair 2 1 1%float].

Definition hugeEdge (iters : Z) : ChineseWhispers :=
  graphOf iters [mkPair 0 two63 1%float].

Definition selfLoop (iters : Z) : ChineseWhispers :=
  graphOf iters [mkPair 0 0 1%float].

Definition gapGraph (iters : Z) : ChineseWhispers :=
  graphOf iters [mkPair 0 2 1%float; mkPair 2 0 1%float].

(** ** The rest of the sort interface *)

(** [Edges.Len]. *)
Definition Len (e : Edges) : Z := Z.of_nat (length e).

(** [Edges.Swap]: [e[i], e[j] = e[j], e[i]], on [int] indices; both elements
    are read before either is written, and an index outside the slice
    panics. *)
Definition Swap (e : Edges) (i j : Z) : option Edges :=
  if (0 <=? i) && (i <? Len e) && (0 <=? j) && (j <? Len e)
  then
    match e !! Z.to_nat i, e !! Z.to_nat j with
    | Some a, Some b => Some (<[Z.to_nat j := a]> (<[Z.to_nat i := b]> e))
    | _, _ => None
    end
  else None.

(** What one pass of the loop of [ensureOrdered] appends for an edge. *)
Definition withMirror (p : Pair) : Edges :=
  if negb (Idx1 p =? Idx2 p)
  then [mkPair (Idx1 p) (Idx2 p) (Distance p); mkPair (Idx2 p) (Idx1 p) (Distance p)]
  else [mkPair (Idx1 p) (Idx2 p) (Distance p)].

(** The weights a tally adds up for label [k]: those of the edges of [es], in
    order, whose far end carries [k]. *)
Definition weightsFor (lab : list Z) (k : Z) (es : Edges) : list float :=
  omap (fun p => if decide (lab !! Z.to_nat (Idx2 p) = Some k)
                 then Some (Distance p) else None) es.

(** The raw labels in use, as a set. *)
Definition labelSet (lab : list Z) : gset Z := list_to_set lab.

(** The order [sort.IsSorted] checks between neighbours. *)
Definition notAfter (a b : Pair) : Prop := Less b a = false.

(** ** Ties in a tally *)

(** An entry that the loop over the tally can end on: its score is above
    [-Inf] and no entry of the tally exceeds it. *)
Definition isBestb (l : list (Z * float)) (kv : Z * float) : bool :=
  (neg_infinity <? snd kv)%float && forallb (fun kv' => negb (snd kv <? snd kv')%float) l.

(** The same, as a proposition about the entry [(k, v)]. *)
Definition isBest (l : list (Z * float)) (k : Z) (v : float) : Prop :=
  (k, v) ∈ l /\ (neg_infinity <? v)%float = true /\
  Forall (fun kv : Z * float => (v <? snd kv)%float = false) l.

(** No tie: any two such entries carry the same label. *)
Definition tieFreeb (l : list (Z * float)) : bool :=
  forallb (fun kv1 =>
    forallb (fun kv2 => implb (isBestb l kv1 && isBestb l kv2) (fst kv1 =? fst kv2)) l) l.

(** The tally that pass [i] builds before it chooses a label. *)
Definition stepTally (e : Edges) (nb : list Range) (rt : Runtime) (i : nat) (lab : list Z)
  : option (gmap Z float) :=
  let len := Z.of_nat (length nb) in
  if len =? 0 then None
  else
    let idx := Z.to_nat (Z.rem (Int63 (randUint64 rt i)) len) in
    match nb !! idx with
    | None => None
    | Some (start, stop) => tallyFrom (drop (Z.to_nat start) e) start stop lab ∅
    end.

Definition stepTieFree (e : Edges) (nb : list Range) (rt : Runtime) (i : nat) (lab : list Z)
  : bool :=
  match stepTally e nb rt i lab with
  | Some m => tieFreeb (map_to_list m)
  | None => true
  end.

(** No pass of the loop, run from pass [i] on [lab], meets a tie. *)
Fixpoint tieFreePasses (e : Edges) (nb : list Range) (rt : Runtime)
  (i todo : nat) (lab : list Z) : bool :=
  match todo with
  | O => true
  | S todo' =>
      stepTieFree e nb rt i lab &&
      match step e nb rt i lab with
      | Some lab' => tieFreePasses e nb rt (S i) todo' lab'
      | None => true
      end
  end.

(** No pass of [Run] on the instance meets a tie. *)
Definition tieFreeRun (rt : Runtime) (c : ChineseWhispers) : bool :=
  match findNeighbourRanges (edges c) with
  | Some nb =>
      tieFreePasses (edges c) nb rt 0 (stepCount (length nb) (numIterations c))
        (initLabels (length nb))
  | None => true
  end.

(** A triangle with one strong edge, with its mirrors, sorted. *)
Definition weightedTriangle : Edges :=
  [mkPair 0 1 5%float; mkPair 0 2 0.125%float; mkPair 1 0 5%float;
   mkPair 1 2 0.125%float; mkPair 2 0 0.125%float; mkPair 2 1 0.125%float].

(** An unsorted store in which node 0 has a run of two edges. *)
Definition twoRuns : Edges :=
  [mkPair 1 0 1%float; mkPair 0 1 1%float; mkPair 0 2 1%float].

(** What the walk of [findNeighbourRanges] has established after the edges
    [pre]: the current run starts at [startIdx], is not empty unless nothing
    was read, holds edges that leave [curNode] and is preceded by an edge that
    does not; every recorded range holds edges that leave its node and, when
    it is not empty, is preceded by an edge that does not; and for a node
    other than [curNode] every edge that leaves it lies at or before a
    position of its range. *)
Definition runsInv (pre : Edges) (nb : list Range) (cur start : Z) : Prop :=
  0 <= start <= Z.of_nat (length pre) /\
  (pre = [] \/ start < Z.of_nat (length pre)) /\
  (forall (j : nat) p, start <= Z.of_nat j -> pre !! j = Some p -> Idx1 p = cur) /\
  (forall (j : nat) p, Z.of_nat j + 1 = start -> pre !! j = Some p -> Idx1 p <> cur) /\
  (forall (v : nat) r, nb !! v = Some r ->
     forall j : nat, r.1 <= Z.of_nat j < r.2 ->
       exists p, pre !! j = Some p /\ Idx1 p = Z.of_nat v) /\
  (forall (v : nat) r, nb !! v = Some r -> r.1 < r.2 ->
     forall (j : nat) p, Z.of_nat j + 1 = r.1 -> pre !! j = Some p ->
       Idx1 p <> Z.of_nat v) /\
  (forall (v : nat) r, nb !! v = Some r -> Z.of_nat v <> cur ->
     forall (j : nat) p, pre !! j = Some p -> Idx1 p = Z.of_nat v ->
       exists j' : nat, (j <= j')%nat /\ r.1 <= Z.of_nat j' < r.2).

(** * Properties *)

(** ** Machine integers *)

Lemma int_of_u64_small x : 0 <= x < two63 -> int_of_u64 x = x.
Proof.
  intros Hx. unfold int_of_u64.
  destruct (Z.ltb_spec x two63); [reflexivity | lia].
Qed.

Lemma int_mul_small a b : 0 <= a * b < two63 -> int_mul a b = a * b.
Proof.
  intros H. unfold int_mul.
  rewrite Z.mod_small by (unfold two63, two64 in *; lia).
  by apply int_of_u64_small.
Qed.

Lemma stepCount_small (n : nat) (iters : Z) :
  0 <= iters -> Z.of_nat n * iters < two63 ->
  stepCount n iters = Z.to_nat (Z.of_nat n * iters).
Proof.
  intros Hi Hb. unfold stepCount.
  destruct n as [|n].
  - unfold int_mul. simpl. reflexivity.
  - assert (iters < two63) by nia.
    rewrite int_of_u64_small by lia.
    rewrite int_mul_small by nia. reflexivity.
Qed.

Lemma stepCount_zero n : stepCount n 0 = 0%nat.
Proof. unfold stepCount, int_mul. rewrite Z.mul_0_r. reflexivity. Qed.

Lemma Int63_range bits : 0 <= Int63 bits < two63.
Proof. unfold Int63. apply Z.mod_pos_bound. reflexivity. Qed.

(** ** Well-formed edges *)

Lemma wfEdges_Forall e :
  wfEdges e = true ->
  Forall (fun p => 0 <= Idx1 p < two64 /\ 0 <= Idx2 p < two64) e.
Proof.
  unfold wfEdges. rewrite forallb_forall, Forall_forall.
  intros H p Hp. apply list_elem_of_In in Hp. specialize (H p Hp). unfold wfPair in H.
  rewrite !andb_true_iff in H. lia.
Qed.

Lemma fitsInt_Forall e :
  fitsInt e = true ->
  Forall (fun p => 0 <= Idx1 p < two63 - 1 /\ 0 <= Idx2 p < two63 - 1) e.
Proof.
  unfold fitsInt. rewrite forallb_forall, Forall_forall.
  intros H p Hp. apply list_elem_of_In in Hp. specialize (H p Hp). unfold fitsPair in H.
  rewrite !andb_true_iff in H. lia.
Qed.

Lemma fitsInt_wfEdges e : fitsInt e = true -> wfEdges e = true.
Proof.
  unfold fitsInt, wfEdges. rewrite !forallb_forall.
  intros H p Hp. specialize (H p Hp). unfold fitsPair, wfPair in *.
  rewrite !andb_true_iff in *. unfold two63, two64 in *. lia.
Qed.

(** ** The maximal endpoint *)

Lemma maxIdxStep_spec m p :
  m <= maxIdxStep m p /\ Idx1 p <= maxIdxStep m p /\ Idx2 p <= maxIdxStep m p /\
  (maxIdxStep m p = m \/ maxIdxStep m p = Idx1 p \/ maxIdxStep m p = Idx2 p).
Proof.
  unfold maxIdxStep.
  destruct (Z.gtb_spec (Idx1 p) m);
    repeat match goal with |- context [?a >? ?b] => destruct (Z.gtb_spec a b) end; lia.
Qed.

Lemma fold_maxIdx_ge e : forall m, m <= fold_left maxIdxStep e m.
Proof.
  induction e as [|p e IH]; intros m; simpl; [lia|].
  pose proof (maxIdxStep_spec m p). specialize (IH (maxIdxStep m p)). lia.
Qed.

Lemma fold_maxIdx_upper e : forall m p,
  p ∈ e -> Idx1 p <= fold_left maxIdxStep e m /\ Idx2 p <= fold_left maxIdxStep e m.
Proof.
  induction e as [|q e IH]; intros m p Hp; [by apply elem_of_nil in Hp|].
  apply elem_of_cons in Hp as [->|Hp]; simpl.
  - pose proof (maxIdxStep_spec m q). pose proof (fold_maxIdx_ge e (maxIdxStep m q)). lia.
  - by apply IH.
Qed.

Lemma fold_maxIdx_attained e : forall m,
  fold_left maxIdxStep e m = m \/
  exists p, p ∈ e /\ (fold_left maxIdxStep e m = Idx1 p \/ fold_left maxIdxStep e m = Idx2 p).
Proof.
  induction e as [|q e IH]; intros m; simpl; [by left|].
  destruct (IH (maxIdxStep m q)) as [Heq | (p & Hp & Hv)].
  - rewrite Heq. destruct (maxIdxStep_spec m q) as (_ & _ & _ & [H | H]).
    + by left.
    + right. exists q. split; [apply elem_of_cons; by left | lia].
  - right. exists p. split; [apply elem_of_cons; by right | done].
Qed.

Lemma maxIdxOf_upper e p : p ∈ e -> Idx1 p <= maxIdxOf e /\ Idx2 p <= maxIdxOf e.
Proof. apply fold_maxIdx_upper. Qed.

Lemma maxIdxOf_nonneg e : 0 <= maxIdxOf e.
Proof. apply fold_maxIdx_ge. Qed.

Lemma maxIdxOf_bound e B :
  0 < B -> Forall (fun p => Idx1 p < B /\ Idx2 p < B) e -> maxIdxOf e < B.
Proof.
  intros HB Hall.
  destruct (fold_maxIdx_attained e 0) as [H | (p & Hp & H)]; unfold maxIdxOf.
  - lia.
  - rewrite Forall_forall in Hall. specialize (Hall p Hp). lia.
Qed.

(** [maxIdxOf] is the largest endpoint: an upper bound that some edge attains. *)
Lemma maxIdxOf_attained e :
  wfEdges e = true -> e <> [] ->
  exists p, p ∈ e /\ (Idx1 p = maxIdxOf e \/ Idx2 p = maxIdxOf e).
Proof.
  intros Hwf Hne. apply wfEdges_Forall in Hwf.
  destruct (fold_maxIdx_attained e 0) as [H0 | (p & Hp & Hv)].
  - destruct e as [|p e]; [done|].
    assert (Hp : p ∈ p :: e) by (apply elem_of_cons; by left).
    exists p. split; [done|]. left.
    pose proof (maxIdxOf_upper _ p Hp) as [Hup _].
    rewrite Forall_forall in Hwf. specialize (Hwf p Hp).
    unfold maxIdxOf in *. lia.
  - exists p. split; [done|]. unfold maxIdxOf. destruct Hv; [left | right]; done.
Qed.

(** With endpoints that fit, the node count is the maximal endpoint plus one. *)
Lemma numNodes_fits e :
  fitsInt e = true -> e <> [] ->
  numNodes e = maxIdxOf e + 1 /\ 0 < numNodes e < two63 /\
  Forall (fun p => 0 <= Idx1 p < numNodes e /\ 0 <= Idx2 p < numNodes e) e.
Proof.
  intros Hfit Hne. apply fitsInt_Forall in Hfit.
  assert (Hm : maxIdxOf e < two63 - 1).
  { apply maxIdxOf_bound; [reflexivity|]. eapply Forall_impl; [exact Hfit|]. simpl. lia. }
  pose proof (maxIdxOf_nonneg e) as H0.
  assert (Hn : numNodes e = maxIdxOf e + 1).
  { destruct e; [done|]. unfold numNodes, u64. apply Z.mod_small.
    unfold two63, two64 in *. lia. }
  rewrite Hn. split; [done|]. split; [lia|].
  rewrite Forall_forall in *. intros p Hp.
  pose proof (maxIdxOf_upper e p Hp). specialize (Hfit p Hp). lia.
Qed.

(** Whenever ranges were allocated at all, every endpoint indexes them. *)
Lemma alloc_covers e :
  wfEdges e = true ->
  (0 < Z.to_nat (int_of_u64 (numNodes e)))%nat ->
  Z.of_nat (Z.to_nat (int_of_u64 (numNodes e))) = numNodes e /\
  Forall (fun p => 0 <= Idx1 p < numNodes e /\ 0 <= Idx2 p < numNodes e) e.
Proof.
  intros Hwf Hpos. apply wfEdges_Forall in Hwf.
  assert (Hm : 0 <= maxIdxOf e < two64).
  { split; [apply maxIdxOf_nonneg|]. apply maxIdxOf_bound; [reflexivity|].
    eapply Forall_impl; [exact Hwf|]. simpl. intros; lia. }
  destruct e as [|p0 e0]; [vm_compute in Hpos; lia|].
  set (e := p0 :: e0) in *.
  assert (Hu : 0 <= numNodes e < two64) by (apply Z.mod_pos_bound; reflexivity).
  revert Hpos. unfold int_of_u64.
  destruct (Z.ltb_spec (numNodes e) two63) as [Hlt|Hge]; intros Hpos.
  2:{ unfold two63, two64 in *. lia. }
  assert (Hn : numNodes e = maxIdxOf e + 1).
  { destruct (Z.eq_dec (maxIdxOf e + 1) two64) as [Heq|Hneq].
    - exfalso. revert Hpos. unfold numNodes, e, u64. fold e. rewrite Heq.
      rewrite Z.mod_same by done. simpl. lia.
    - unfold numNodes, e, u64. fold e. apply Z.mod_small. lia. }
  split; [lia|].
  rewrite Forall_forall in *. intros p Hp.
  pose proof (maxIdxOf_upper e p Hp). specialize (Hwf p Hp). lia.
Qed.

(** ** The walk over the edges, for any edge sequence *)

Lemma setRange_Some nb k r nb' :
  setRange nb k r = Some nb' ->
  0 <= k < Z.of_nat (length nb) /\ nb' = <[Z.to_nat k := r]> nb.
Proof.
  unfold setRange. intros H.
  destruct (Z.leb_spec 0 k); destruct (Z.ltb_spec k (Z.of_nat (length nb)));
    simpl in H; try discriminate.
  injection H as <-. split; [lia | reflexivity].
Qed.

Lemma setRange_ok nb k r :
  0 <= k < Z.of_nat (length nb) -> setRange nb k r = Some (<[Z.to_nat k := r]> nb).
Proof.
  intros Hk. unfold setRange.
  destruct (Z.leb_spec 0 k); destruct (Z.ltb_spec k (Z.of_nat (length nb)));
    simpl; try lia. reflexivity.
Qed.

Lemma rangesWithin_mono hi hi' nb : hi <= hi' -> rangesWithin hi nb -> rangesWithin hi' nb.
Proof. intros Hle H. eapply Forall_impl; [exact H|]. intros r; simpl; lia. Qed.

Lemma walkEdges_length rest : forall i nb cur start nb' cur' start',
  walkEdges rest i nb cur start = Some (nb', cur', start') -> length nb' = length nb.
Proof.
  induction rest as [|p rest IH]; intros i nb cur start nb' cur' start' H; simpl in H.
  - by injection H as <- _ _.
  - destruct (Idx1 p =? cur); [by eapply IH|].
    destruct (setRange nb cur (start, i)) as [nb1|] eqn:Hset; [|discriminate].
    apply setRange_Some in Hset as [_ ->].
    apply IH in H. by rewrite length_insert in H.
Qed.

Lemma walkEdges_within rest : forall i nb cur start nb' cur' start',
  walkEdges rest i nb cur start = Some (nb', cur', start') ->
  rangesWithin i nb -> 0 <= start <= i ->
  rangesWithin (i + Z.of_nat (length rest)) nb' /\
  0 <= start' <= i + Z.of_nat (length rest).
Proof.
  induction rest as [|p rest IH]; intros i nb cur start nb' cur' start' H Hnb Hs; simpl in H.
  - injection H as <- _ <-. simpl. rewrite Z.add_0_r. done.
  - replace (i + Z.of_nat (length (p :: rest))) with (i + 1 + Z.of_nat (length rest))
      by (simpl length; lia).
    destruct (Idx1 p =? cur).
    + eapply IH; [exact H | | lia]. eapply rangesWithin_mono; [|exact Hnb]. lia.
    + destruct (setRange nb cur (start, i)) as [nb1|] eqn:Hset; [|discriminate].
      apply setRange_Some in Hset as [_ ->].
      eapply IH; [exact H | | lia].
      apply Forall_insert; [|simpl; lia].
      eapply rangesWithin_mono; [|exact Hnb]. lia.
Qed.

Lemma walkEdges_total rest : forall i nb cur start,
  Forall (fun p => 0 <= Idx1 p < Z.of_nat (length nb)) rest ->
  0 <= cur < Z.of_nat (length nb) ->
  exists nb' cur' start',
    walkEdges rest i nb cur start = Some (nb', cur', start') /\
    0 <= cur' < Z.of_nat (length nb).
Proof.
  induction rest as [|p rest IH]; intros i nb cur start Hall Hcur; simpl.
  - eauto.
  - apply Forall_cons in Hall as [Hp Hall].
    destruct (Idx1 p =? cur); [by apply IH|].
    rewrite setRange_ok by done.
    destruct (IH (i + 1) (<[Z.to_nat cur := (start, i)]> nb) (Idx1 p) i)
      as (nb' & cur' & start' & Hw & Hc); rewrite ?length_insert; try done.
    rewrite length_insert in Hc. eauto.
Qed.

(** A node the remaining edges never leave keeps an empty range. *)
Lemma walkEdges_no_outgoing rest : forall i nb cur start nb' cur' start' (v : nat),
  walkEdges rest i nb cur start = Some (nb', cur', start') ->
  Forall (fun p => Idx1 p <> Z.of_nat v) rest ->
  (forall r, nb !! v = Some r -> r.1 = r.2) ->
  (Z.of_nat v <> cur \/ start = i) ->
  (forall r, nb' !! v = Some r -> r.1 = r.2) /\
  (Z.of_nat v <> cur' \/ start' = i + Z.of_nat (length rest)).
Proof.
  induction rest as [|p rest IH]; intros i nb cur start nb' cur' start' v H Hall Hemp Hcur;
    simpl in H.
  - injection H as <- <- <-. split; [done|]. simpl. rewrite Z.add_0_r. done.
  - apply Forall_cons in Hall as [Hp Hall].
    replace (i + Z.of_nat (length (p :: rest))) with (i + 1 + Z.of_nat (length rest))
      by (simpl length; lia).
    destruct (Z.eqb_spec (Idx1 p) cur) as [Heq|Hne].
    + eapply IH; [exact H | done | done |]. left. congruence.
    + destruct (setRange nb cur (start, i)) as [nb1|] eqn:Hset; [|discriminate].
      apply setRange_Some in Hset as [Hk ->].
      eapply IH; [exact H | done | | by left].
      intros r Hr. destruct (decide (Z.to_nat cur = v)) as [Hv|Hv].
      * subst v. assert (Z.to_nat cur < length nb)%nat as Hlt by (clear -Hk; lia).
        rewrite list_lookup_insert_eq in Hr by exact Hlt.
        injection Hr as <-. simpl. destruct Hcur as [Hc|Hc]; lia.
      * rewrite list_lookup_insert_ne in Hr by done. by apply Hemp.
Qed.

(** ** The ranges [findNeighbourRanges] returns *)

Lemma findNeighbourRanges_length e nb :
  findNeighbourRanges e = Some nb ->
  length nb = Z.to_nat (int_of_u64 (numNodes e)).
Proof.
  unfold findNeighbourRanges. intros H.
  destruct (walkEdges e 0 _ 0 0) as [[[nb1 cur] start]|] eqn:Hw; [|discriminate].
  apply walkEdges_length in Hw. rewrite length_replicate in Hw.
  destruct (negb _).
  - apply setRange_Some in H as [_ ->]. by rewrite length_insert.
  - by injection H as <-.
Qed.

Lemma findNeighbourRanges_within e nb :
  findNeighbourRanges e = Some nb -> rangesWithin (Z.of_nat (length e)) nb.
Proof.
  unfold findNeighbourRanges. intros H.
  destruct (walkEdges e 0 _ 0 0) as [[[nb1 cur] start]|] eqn:Hw; [|discriminate].
  apply walkEdges_within in Hw as [Hnb Hs]; [| |lia].
  2:{ apply Forall_replicate. simpl. lia. }
  simpl in Hnb, Hs.
  destruct (negb _).
  - apply setRange_Some in H as [_ ->]. apply Forall_insert; [done|]. simpl. lia.
  - by injection H as <-.
Qed.

Lemma findNeighbourRanges_no_outgoing e nb (v : nat) r :
  findNeighbourRanges e = Some nb ->
  Forall (fun p => Idx1 p <> Z.of_nat v) e ->
  nb !! v = Some r -> r.1 = r.2.
Proof.
  unfold findNeighbourRanges. intros H Hall Hr.
  destruct (walkEdges e 0 _ 0 0) as [[[nb1 cur] start]|] eqn:Hw; [|discriminate].
  eapply (walkEdges_no_outgoing _ _ _ _ _ _ _ _ v) in Hw as [Hemp Hcur]; [|done| |by right].
  2:{ intros r0 Hr0. apply lookup_replicate in Hr0 as [-> _]. done. }
  destruct (negb _).
  - apply setRange_Some in H as [Hk ->].
    destruct (decide (Z.to_nat cur = v)) as [Hv|Hv].
    + subst v. assert (Z.to_nat cur < length nb1)%nat as Hlt by (clear -Hk; lia).
      rewrite list_lookup_insert_eq in Hr by exact Hlt.
      injection Hr as <-. simpl. clear -Hcur Hk. lia.
    + rewrite list_lookup_insert_ne in Hr by done. by apply Hemp.
  - injection H as <-. by apply Hemp.
Qed.

(** With endpoints that fit, indexing succeeds on any edge sequence. *)
Lemma findNeighbourRanges_total e :
  fitsInt e = true ->
  exists nb, findNeighbourRanges e = Some nb /\ Z.of_nat (length nb) = numNodes e.
Proof.
  intros Hfit.
  destruct (decide (e = [])) as [->|Hne]; [by exists []|].
  destruct (numNodes_fits e Hfit Hne) as (Hn & Hrange & Hall).
  assert (Hlen : Z.of_nat (Z.to_nat (int_of_u64 (numNodes e))) = numNodes e).
  { rewrite int_of_u64_small by lia. lia. }
  unfold findNeighbourRanges.
  destruct (walkEdges_total e 0 (replicate (Z.to_nat (int_of_u64 (numNodes e))) (0, 0)) 0 0)
    as (nb1 & cur & start & Hw & Hcur).
  { rewrite length_replicate, Hlen. eapply Forall_impl; [exact Hall|]. simpl. intros; lia. }
  { rewrite length_replicate, Hlen. lia. }
  rewrite Hw. pose proof (walkEdges_length _ _ _ _ _ _ _ _ Hw) as Hl.
  rewrite length_replicate in Hl, Hcur.
  destruct (Z.eqb_spec (Z.of_nat (length nb1)) 0) as [H0|H0]; simpl.
  - exists nb1. split; [done|]. lia.
  - rewrite setRange_ok by lia. eexists. split; [done|].
    rewrite length_insert. lia.
Qed.

(** ** The tally and the choice of the best label *)

Lemma tallyFrom_empty rest n lab m : tallyFrom rest n n lab m = Some m.
Proof. destruct rest; simpl; by rewrite Z.eqb_refl. Qed.

Lemma addCount_keys m k d j :
  is_Some (addCount m k d !! j) -> j = k \/ is_Some (m !! j).
Proof.
  unfold addCount. destruct (decide (k = j)) as [->|Hne]; [by left|].
  rewrite lookup_insert_ne by done. by right.
Qed.

Lemma tallyFrom_keys rest : forall n stop (lab : list Z) m m',
  tallyFrom rest n stop lab m = Some m' ->
  forall j, is_Some (m' !! j) -> is_Some (m !! j) \/ j ∈ lab.
Proof.
  induction rest as [|p rest IH]; intros n stop lab m m' H j Hj; simpl in H.
  - destruct (n =? stop); [|discriminate]. injection H as <-. by left.
  - destruct (n =? stop); [injection H as <-; by left|].
    destruct (lab !! Z.to_nat (Idx2 p)) as [l|] eqn:Hl; [|discriminate].
    destruct (IH _ _ _ _ _ H j Hj) as [Hin|Hin]; [|by right].
    apply addCount_keys in Hin as [->|Hin]; [|by left].
    right. by eapply list_elem_of_lookup_2.
Qed.

Lemma tallyFrom_total rest : forall n stop (lab : list Z) m,
  n <= stop -> stop - n <= Z.of_nat (length rest) ->
  Forall (fun p => 0 <= Idx2 p < Z.of_nat (length lab)) rest ->
  exists m', tallyFrom rest n stop lab m = Some m' /\
             forall j, is_Some (m' !! j) -> is_Some (m !! j) \/ j ∈ lab.
Proof.
  intros n stop lab m Hle Hlen Hall.
  assert (Hsome : exists m', tallyFrom rest n stop lab m = Some m').
  { revert n m Hle Hlen. induction rest as [|p rest IH]; intros n m Hle Hlen; simpl.
    - simpl in Hlen. assert (n = stop) as -> by lia. rewrite Z.eqb_refl. eauto.
    - destruct (Z.eqb_spec n stop) as [->|Hne]; [eauto|].
      apply Forall_cons in Hall as [Hp Hall].
      destruct (lookup_lt_is_Some_2 lab (Z.to_nat (Idx2 p))) as [l Hl]; [lia|].
      rewrite Hl. apply IH; [done | lia | simpl length in Hlen; lia]. }
  destruct Hsome as [m' Hm']. exists m'. split; [done|].
  by eapply tallyFrom_keys.
Qed.

Lemma permute_nil {A} (code : list nat) : permute code (@nil A) = [].
Proof. by destruct code. Qed.

(** Every code visits every entry exactly once. *)
Lemma permute_Permutation {A} (code : list nat) : forall l : list A, permute code l ≡ₚ l.
Proof.
  induction code as [|c code IH]; intros l; simpl; [done|].
  destruct l as [|a l]; [done|].
  destruct ((a :: l) !! (c mod length (a :: l))%nat) as [x|] eqn:Hx; [|done].
  rewrite IH. symmetry. by apply delete_Permutation.
Qed.

(** Every order of the entries is the one some code selects. *)
Lemma permute_complete {A} (l' : list A) : forall l,
  l' ≡ₚ l -> exists code, permute code l = l'.
Proof.
  induction l' as [|x l' IH]; intros l Hperm.
  - apply Permutation_nil_l in Hperm as ->. by exists [].
  - assert (Hx : x ∈ l) by (rewrite <- Hperm; apply elem_of_cons; by left).
    apply list_elem_of_lookup_1 in Hx as [i Hi].
    pose proof (delete_Permutation l i x Hi) as Hdel.
    destruct (IH (delete i l)) as [code Hcode].
    { apply (Permutation_cons_inv (a := x)). by rewrite <- Hdel. }
    exists (i :: code). simpl.
    pose proof (lookup_lt_Some _ _ _ Hi) as Hlt.
    destruct l as [|a l]; [done|].
    rewrite Nat.mod_small by done. rewrite Hi. by rewrite Hcode.
Qed.

Lemma fold_betterEntry_in visit : forall best,
  snd (fold_left betterEntry visit best) = snd best \/
  exists v, (snd (fold_left betterEntry visit best), v) ∈ visit.
Proof.
  induction visit as [|[k v] visit IH]; intros best; simpl; [by left|].
  destruct (IH (betterEntry best (k, v))) as [Heq | (w & Hw)].
  - rewrite Heq. unfold betterEntry. simpl.
    destruct (fst best <? v)%float; simpl; [|by left].
    right. exists v. apply elem_of_cons. by left.
  - right. exists w. apply elem_of_cons. by right.
Qed.

Lemma pickBest_in visit own :
  pickBest visit own = own \/ exists v, (pickBest visit own, v) ∈ visit.
Proof. apply (fold_betterEntry_in visit (neg_infinity, own)). Qed.

(** ** One pass of the propagation loop *)

(** A pass assigns one entry of the label array and nothing else. *)
Lemma step_single_write e nb rt i lab lab' :
  step e nb rt i lab = Some lab' ->
  exists (idx : nat) (x : Z),
    idx = Z.to_nat (Z.rem (Int63 (randUint64 rt i)) (Z.of_nat (length nb))) /\
    (idx < length lab)%nat /\ lab' = <[idx := x]> lab.
Proof.
  unfold step. intros H.
  destruct (Z.of_nat (length nb) =? 0); [discriminate|].
  set (idx := Z.to_nat _) in *.
  destruct (nb !! idx) as [[start stop]|]; [|discriminate].
  destruct (tallyFrom _ _ _ _ _) as [m|]; [|discriminate].
  destruct (lab !! idx) as [own|] eqn:Hown; [|discriminate].
  injection H as <-. eexists idx, _. split; [done|].
  split; [by eapply lookup_lt_Some | done].
Qed.

Lemma step_length e nb rt i lab lab' :
  step e nb rt i lab = Some lab' -> length lab' = length lab.
Proof.
  intros H. apply step_single_write in H as (idx & x & _ & _ & ->).
  apply length_insert.
Qed.

(** A pass leaves the label of a node with an empty range as it is. *)
Lemma step_isolated e nb rt i lab lab' (v : nat) r :
  nb !! v = Some r -> r.1 = r.2 ->
  step e nb rt i lab = Some lab' -> lab' !! v = lab !! v.
Proof.
  unfold step. intros Hr Hemp H.
  destruct (Z.of_nat (length nb) =? 0); [discriminate|].
  set (idx := Z.to_nat _) in *.
  destruct (nb !! idx) as [[start stop]|] eqn:Hidx; [|discriminate].
  destruct (tallyFrom _ _ _ _ _) as [m|] eqn:Hm; [|discriminate].
  destruct (lab !! idx) as [own|] eqn:Hown; [|discriminate].
  injection H as <-.
  destruct (decide (idx = v)) as [->|Hne]; [|by apply list_lookup_insert_ne].
  rewrite Hr in Hidx. injection Hidx as ->. simpl in Hemp. subst stop.
  rewrite tallyFrom_empty in Hm. injection Hm as <-.
  rewrite map_to_list_empty, permute_nil. unfold pickBest. simpl.
  by rewrite list_insert_id.
Qed.

(** The label a pass writes is the current label of some node. *)
Lemma step_writes_current_label e nb rt i lab lab' :
  step e nb rt i lab = Some lab' -> forall l, l ∈ lab' -> l ∈ lab.
Proof.
  unfold step. intros H l Hl.
  destruct (Z.of_nat (length nb) =? 0); [discriminate|].
  set (idx := Z.to_nat _) in *.
  destruct (nb !! idx) as [[start stop]|]; [|discriminate].
  destruct (tallyFrom _ _ _ _ _) as [m|] eqn:Hm; [|discriminate].
  destruct (lab !! idx) as [own|] eqn:Hown; [|discriminate].
  injection H as <-.
  apply list_elem_of_lookup_1 in Hl as [j Hj].
  destruct (decide (idx = j)) as [<-|Hne].
  2:{ rewrite list_lookup_insert_ne in Hj by done. by eapply list_elem_of_lookup_2. }
  rewrite list_lookup_insert_eq in Hj by (by eapply lookup_lt_Some).
  injection Hj as <-.
  pose proof (pickBest_in (permute (rangeOrder rt i) (map_to_list m)) own) as Hbest.
  remember (pickBest (permute (rangeOrder rt i) (map_to_list m)) own) as best eqn:Ebest.
  clear Ebest. destruct Hbest as [-> | (w & Hw)].
  - by eapply list_elem_of_lookup_2.
  - rewrite permute_Permutation in Hw. apply elem_of_map_to_list in Hw.
    destruct (tallyFrom_keys _ _ _ _ _ _ Hm best (mk_is_Some _ _ Hw)) as [Habs|Hin]; [|done].
    rewrite lookup_empty in Habs. by destruct Habs.
Qed.

Section Propagation.

Variable e : Edges.
Variable nb : list Range.
Variable rt : Runtime.

Hypothesis nb_within : rangesWithin (Z.of_nat (length e)) nb.
Hypothesis nb_covers : Forall (fun p => 0 <= Idx2 p < Z.of_nat (length nb)) e.

Lemma initLabels_OK : labelsOK nb (initLabels (length nb)).
Proof.
  unfold labelsOK, initLabels. rewrite length_fmap, length_seq. split; [done|].
  apply Forall_fmap, Forall_forall. intros j Hj. apply elem_of_seq in Hj. simpl. lia.
Qed.

Lemma step_total i lab :
  (0 < length nb)%nat -> labelsOK nb lab ->
  exists lab', step e nb rt i lab = Some lab' /\ labelsOK nb lab'.
Proof.
  intros Hpos [Hlen Hlab]. unfold step. cbv zeta.
  destruct (Z.eqb_spec (Z.of_nat (length nb)) 0) as [H0|_]; [lia|].
  pose proof (Int63_range (randUint64 rt i)) as Hr.
  assert (Hrem : 0 <= Z.rem (Int63 (randUint64 rt i)) (Z.of_nat (length nb))
                 < Z.of_nat (length nb)) by (apply Z.rem_bound_pos; lia).
  set (idx := Z.to_nat _).
  assert (Hidx : (idx < length nb)%nat) by (subst idx; lia).
  destruct (lookup_lt_is_Some_2 nb idx Hidx) as [[start stop] Hrange].
  rewrite Hrange.
  assert (Hb : 0 <= start <= stop /\ stop <= Z.of_nat (length e)).
  { unfold rangesWithin in nb_within. rewrite Forall_forall in nb_within.
    apply (nb_within (start, stop)). by eapply list_elem_of_lookup_2. }
  destruct (tallyFrom_total (drop (Z.to_nat start) e) start stop lab ∅) as (m & Hm & Hkeys).
  { lia. }
  { rewrite length_drop. lia. }
  { apply Forall_drop. by rewrite Hlen. }
  rewrite Hm.
  destruct (lookup_lt_is_Some_2 lab idx) as [own Hown]; [lia|].
  rewrite Hown. eexists. split; [done|].
  split; [by rewrite length_insert|].
  apply Forall_insert; [done|].
  rewrite Forall_forall in Hlab.
  pose proof (pickBest_in (permute (rangeOrder rt i) (map_to_list m)) own) as Hbest.
  remember (pickBest (permute (rangeOrder rt i) (map_to_list m)) own) as best eqn:Ebest.
  clear Ebest. destruct Hbest as [-> | (w & Hw)].
  - apply Hlab. by eapply list_elem_of_lookup_2.
  - rewrite permute_Permutation in Hw. apply elem_of_map_to_list in Hw.
    destruct (Hkeys _ (mk_is_Some _ _ Hw)) as [Habs|Hin].
    + rewrite lookup_empty in Habs. by destruct Habs.
    + by apply Hlab.
Qed.

(** The loop never panics, runs the passes it was asked for, and keeps the
    label array within the node indices. *)
Lemma propagateFrom_total todo : forall i lab,
  (todo = 0%nat \/ (0 < length nb)%nat) -> labelsOK nb lab ->
  exists lab', propagateFrom e nb rt i todo lab = Some (lab', todo) /\ labelsOK nb lab'.
Proof.
  induction todo as [|todo IH]; intros i lab Hpos Hlab; simpl; [by eauto|].
  destruct Hpos as [|Hpos]; [done|].
  destruct (step_total i lab Hpos Hlab) as (lab1 & -> & Hlab1).
  destruct (IH (S i) lab1 (or_intror Hpos) Hlab1) as (lab2 & -> & Hlab2).
  eauto.
Qed.

End Propagation.

Lemma propagateFrom_isolated e nb rt (v : nat) r :
  nb !! v = Some r -> r.1 = r.2 ->
  forall todo i lab lab' k,
    propagateFrom e nb rt i todo lab = Some (lab', k) -> lab' !! v = lab !! v.
Proof.
  intros Hr Hemp. induction todo as [|todo IH]; intros i lab lab' k H; simpl in H.
  - by injection H as <- _.
  - destruct (step e nb rt i lab) as [lab1|] eqn:Hstep; [|discriminate].
    destruct (propagateFrom e nb rt (S i) todo lab1) as [[lab2 k2]|] eqn:Hrec; [|discriminate].
    injection H as <- _.
    rewrite (IH _ _ _ _ Hrec). by eapply step_isolated.
Qed.

(** The passes are sequential: pass [i + n] starts from the array the [n]
    passes before it left. *)
Lemma propagateFrom_snoc e nb rt n : forall i lab,
  propagateFrom e nb rt i (S n) lab =
  match propagateFrom e nb rt i n lab with
  | None => None
  | Some (lab1, k) =>
      match step e nb rt (i + n) lab1 with
      | None => None
      | Some lab2 => Some (lab2, S k)
      end
  end.
Proof.
  induction n as [|n IH]; intros i lab.
  - simpl. rewrite Nat.add_0_r. by destruct (step e nb rt i lab).
  - change (propagateFrom e nb rt i (S (S n)) lab) with
      (match step e nb rt i lab with
       | None => None
       | Some lab' =>
           match propagateFrom e nb rt (S i) (S n) lab' with
           | None => None
           | Some (lab'', k) => Some (lab'', S k)
           end
       end).
    simpl (propagateFrom e nb rt i (S n) lab).
    destruct (step e nb rt i lab) as [lab1|]; [|done].
    rewrite IH. replace (S i + n)%nat with (i + S n)%nat by lia.
    destruct (propagateFrom e nb rt (S i) n lab1) as [[lab2 k]|]; [|done].
    by destruct (step e nb rt (i + S n) lab2).
Qed.

(** Two runtimes that agree on the passes executed drive the same loop. *)
Lemma propagateFrom_ext e nb rt1 rt2 todo : forall i lab,
  (forall j, (i <= j < i + todo)%nat ->
     Int63 (randUint64 rt1 j) = Int63 (randUint64 rt2 j) /\
     rangeOrder rt1 j = rangeOrder rt2 j) ->
  propagateFrom e nb rt1 i todo lab = propagateFrom e nb rt2 i todo lab.
Proof.
  induction todo as [|todo IH]; intros i lab Hagree; simpl; [done|].
  assert (Hstep : step e nb rt1 i lab = step e nb rt2 i lab).
  { unfold step. destruct (Hagree i) as [-> ->]; [lia|]. done. }
  rewrite Hstep. destruct (step e nb rt2 i lab) as [lab1|]; [|done].
  rewrite IH; [done|]. intros j Hj. apply Hagree. lia.
Qed.

(** ** The walk over a sorted edge sequence *)

Lemma IsSorted_fromLe e : IsSorted e = true -> StronglySorted fromLe e.
Proof.
  induction e as [|a e IH]; intros H; [constructor|].
  destruct e as [|b e]; [by repeat constructor|].
  simpl in H. apply andb_true_iff in H as [Hab Hrest].
  specialize (IH Hrest).
  assert (Hle : fromLe a b).
  { unfold fromLe. unfold Less in Hab.
    destruct (Z.ltb_spec (Idx1 b) (Idx1 a)); [discriminate | lia]. }
  constructor; [done|].
  constructor; [done|].
  apply StronglySorted_inv in IH as [_ Hall].
  eapply Forall_impl; [exact Hall|]. unfold fromLe in *. intros; lia.
Qed.

Lemma rangeHolds_snoc pre p v r :
  rangeHolds pre v r -> Idx1 p <> Z.of_nat v -> rangeHolds (pre ++ [p]) v r.
Proof.
  intros Hold Hp j. rewrite (Hold j). split.
  - intros (q & Hq & Hv). exists q. split; [|done]. by apply lookup_app_l_Some.
  - intros (q & Hq & Hv). apply lookup_snoc_Some in Hq as [[_ Hq] | [_ ->]]; [eauto | done].
Qed.

Lemma walkEdges_sorted rest : forall pre nb cur start nb' cur' start',
  walkEdges rest (Z.of_nat (length pre)) nb cur start = Some (nb', cur', start') ->
  StronglySorted fromLe rest -> Forall (fun p => cur <= Idx1 p) rest ->
  0 <= cur -> start <= Z.of_nat (length pre) ->
  (forall j p, pre !! j = Some p ->
     Idx1 p <= cur /\ (Idx1 p = cur <-> start <= Z.of_nat j)) ->
  (forall v r, nb !! v = Some r -> Z.of_nat v <> cur -> rangeHolds pre v r) ->
  0 <= cur' /\
  (forall j p, (pre ++ rest) !! j = Some p ->
     Idx1 p <= cur' /\ (Idx1 p = cur' <-> start' <= Z.of_nat j)) /\
  (forall v r, nb' !! v = Some r -> Z.of_nat v <> cur' -> rangeHolds (pre ++ rest) v r).
Proof.
  induction rest as [|p rest IH];
    intros pre nb cur start nb' cur' start' H Hsorted Hge Hcur Hstart Hpos Hranges;
    simpl in H.
  - injection H as <- <- <-. rewrite app_nil_r. done.
  - apply StronglySorted_inv in Hsorted as [Hsorted Hhd].
    apply Forall_cons in Hge as [Hp Hge].
    replace (Z.of_nat (length pre) + 1) with (Z.of_nat (length (pre ++ [p]))) in H
      by (rewrite length_app; simpl; lia).
    replace (pre ++ p :: rest) with ((pre ++ [p]) ++ rest) by (by rewrite <- app_assoc).
    destruct (Z.eqb_spec (Idx1 p) cur) as [Heq|Hne].
    + eapply IH; [exact H | done | done | done | | | ].
      * rewrite length_app. lia.
      * intros j q Hq. apply lookup_snoc_Some in Hq as [[_ Hq] | [-> <-]].
        -- by apply Hpos.
        -- split; [lia|]. split; [lia | done].
      * intros v r Hr Hv. apply rangeHolds_snoc; [by apply Hranges | congruence].
    + destruct (setRange nb cur (start, Z.of_nat (length pre))) as [nb1|] eqn:Hset;
        [|discriminate].
      apply setRange_Some in Hset as [Hk ->].
      assert (Hlt : cur < Idx1 p) by lia.
      eapply IH; [exact H | done | | lia | | | ].
      * eapply Forall_impl; [exact Hhd|]. unfold fromLe. intros; lia.
      * rewrite length_app. simpl. lia.
      * intros j q Hq. apply lookup_snoc_Some in Hq as [[Hj Hq] | [-> <-]].
        -- destruct (Hpos j q Hq) as [Hle _]. split; [lia|]. split; lia.
        -- split; [lia|]. split; [lia | done].
      * intros v r Hr Hv. apply rangeHolds_snoc; [|congruence].
        destruct (decide (Z.to_nat cur = v)) as [Hcv|Hcv].
        -- subst v. assert (Z.to_nat cur < length nb)%nat as Hin by (clear -Hk; lia).
           rewrite list_lookup_insert_eq in Hr by exact Hin. injection Hr as <-.
           intros j. simpl. rewrite Z2Nat.id by done. split.
           ++ intros Hj. destruct (lookup_lt_is_Some_2 pre j) as [q Hq]; [lia|].
              exists q. split; [done|]. apply (Hpos j q Hq). lia.
           ++ intros (q & Hq & Hv'). pose proof (lookup_lt_Some _ _ _ Hq).
              apply (Hpos j q Hq) in Hv'. lia.
        -- rewrite list_lookup_insert_ne in Hr by done.
           apply Hranges; [done|]. clear -Hcv Hcur. lia.
Qed.

(** On a sorted edge sequence every range holds exactly the edges that leave
    its node. *)
Lemma findNeighbourRanges_sorted e nb :
  IsSorted e = true -> wfEdges e = true ->
  findNeighbourRanges e = Some nb ->
  forall v r, nb !! v = Some r -> rangeHolds e v r.
Proof.
  intros Hsorted Hwf H v r Hr. unfold findNeighbourRanges in H.
  destruct (walkEdges e 0 _ 0 0) as [[[nb1 cur] start]|] eqn:Hw; [|discriminate].
  apply (walkEdges_sorted e []) in Hw as (Hcur & Hpos & Hranges); simpl; try lia.
  - simpl in Hpos, Hranges.
    destruct (Z.eqb_spec (Z.of_nat (length nb1)) 0) as [H0|H0]; simpl in H.
    { injection H as <-. apply lookup_lt_Some in Hr. lia. }
    apply setRange_Some in H as [Hk ->].
    destruct (decide (Z.to_nat cur = v)) as [Hcv|Hcv].
    + subst v. assert (Z.to_nat cur < length nb1)%nat as Hin by (clear -Hk; lia).
      rewrite list_lookup_insert_eq in Hr by exact Hin. injection Hr as <-.
      intros j. simpl. rewrite Z2Nat.id by done. split.
      * intros Hj. destruct (lookup_lt_is_Some_2 e j) as [q Hq]; [lia|].
        exists q. split; [done|]. apply (Hpos j q Hq). lia.
      * intros (q & Hq & Hv'). pose proof (lookup_lt_Some _ _ _ Hq).
        apply (Hpos j q Hq) in Hv'. lia.
    + rewrite list_lookup_insert_ne in Hr by done.
      apply Hranges; [done|]. clear -Hcv Hcur. lia.
  - by apply IsSorted_fromLe.
  - apply wfEdges_Forall in Hwf. eapply Forall_impl; [exact Hwf|]. simpl. intros; lia.
  - intros j p Hp. done.
  - intros v0 r0 Hr0 _ j. apply lookup_replicate in Hr0 as [-> _]. simpl.
    split; [lia|]. intros (p & Hp & _). done.
Qed.

(** ** Compaction *)

Lemma remapStep_size m l : (size m <= size (remapStep m l) <= S (size m))%nat.
Proof.
  unfold remapStep. rewrite map_size_insert.
  destruct (m !! l); simpl; lia.
Qed.

Lemma remapStep_pos m l : (1 <= size (remapStep m l))%nat.
Proof.
  unfold remapStep. rewrite map_size_insert.
  destruct (m !! l) as [x|] eqn:Hl; simpl; [|lia].
  destruct (decide (size m = 0%nat)) as [H0|H0]; [|lia].
  apply map_size_empty_inv in H0. subst m. by rewrite lookup_empty in Hl.
Qed.

Lemma fold_remap_size lab : forall m,
  (size m <= size (fold_left remapStep lab m) <= size m + length lab)%nat.
Proof.
  induction lab as [|l lab IH]; intros m; simpl; [lia|].
  pose proof (remapStep_size m l). specialize (IH (remapStep m l)). lia.
Qed.

(** The returned count lies between one and the number of labels. *)
Lemma buildRemap_size lab :
  lab <> [] -> (1 <= size (buildRemap lab) <= length lab)%nat.
Proof.
  intros Hne. unfold buildRemap. destruct lab as [|l lab]; [done|]. simpl.
  pose proof (fold_remap_size lab (remapStep ∅ l)).
  pose proof (remapStep_pos ∅ l). pose proof (remapStep_size ∅ l) as Hs.
  rewrite map_size_empty in Hs. lia.
Qed.

Lemma initLabels_S n : initLabels (S n) = initLabels n ++ [Z.of_nat n].
Proof. unfold initLabels. by rewrite seq_S, fmap_app. Qed.

Lemma initLabels_length n : length (initLabels n) = n.
Proof. unfold initLabels. by rewrite length_fmap, length_seq. Qed.

Lemma initLabels_lookup n (v : nat) : (v < n)%nat -> initLabels n !! v = Some (Z.of_nat v).
Proof.
  intros Hv. unfold initLabels. rewrite list_lookup_fmap.
  by rewrite lookup_seq_lt.
Qed.

Lemma initLabels_NoDup n : NoDup (initLabels n).
Proof.
  unfold initLabels. apply NoDup_fmap_2; [|apply NoDup_seq].
  intros a b. lia.
Qed.

(** On the initial labels the mapping sends every node index to itself. *)
Lemma buildRemap_init n :
  size (buildRemap (initLabels n)) = n /\
  forall k, buildRemap (initLabels n) !! k =
            if decide (0 <= k < Z.of_nat n) then Some k else None.
Proof.
  induction n as [|n [IHs IHl]].
  - split; [done|]. intros k. unfold buildRemap. simpl. rewrite lookup_empty.
    destruct (decide _); [lia | done].
  - rewrite initLabels_S. unfold buildRemap in *. rewrite fold_left_app. simpl.
    set (m := fold_left remapStep (initLabels n) ∅) in *.
    assert (Hnone : m !! Z.of_nat n = None).
    { rewrite IHl. destruct (decide _); [lia | done]. }
    unfold remapStep. split.
    + rewrite map_size_insert_None by done. by rewrite IHs.
    + intros k. rewrite IHs. destruct (decide (Z.of_nat n = k)) as [<-|Hne].
      * rewrite lookup_insert_eq. destruct (decide _); [done | lia].
      * rewrite lookup_insert_ne by done. rewrite IHl.
        repeat destruct (decide _); try done; lia.
Qed.

Lemma applyRemap_init n : applyRemap (buildRemap (initLabels n)) (initLabels n) = initLabels n.
Proof.
  destruct (buildRemap_init n) as [_ Hl]. unfold applyRemap.
  apply list_eq. intros i. rewrite list_lookup_fmap.
  destruct (initLabels n !! i) as [l|] eqn:Hi; [|done]. simpl. f_equal.
  pose proof (lookup_lt_Some _ _ _ Hi) as Hlt. rewrite initLabels_length in Hlt.
  rewrite initLabels_lookup in Hi by done. injection Hi as <-.
  rewrite Hl. destruct (decide _); [done | lia].
Qed.

(** ** ensureOrdered *)

Lemma ensureOrdered_unchanged c : ensureOrdered c = c.
Proof. unfold ensureOrdered. by destruct (IsSorted (edges c)). Qed.

(** ** Run, unfolded *)

Lemma Run_no_edges rt c :
  edges c = [] -> Run rt c = Some (mkOutcome 0 (setLabels c []) 0 []).
Proof.
  intros He. unfold Run. rewrite ensureOrdered_unchanged.
  unfold setLabels at 1. simpl. rewrite He. reflexivity.
Qed.

Lemma Run_with_edges rt c nb :
  edges c <> [] -> findNeighbourRanges (edges c) = Some nb ->
  Run rt c =
  match propagateFrom (edges c) nb rt 0 (stepCount (length nb) (numIterations c))
          (initLabels (length nb)) with
  | None => None
  | Some (lab, k) =>
      Some (mkOutcome (Z.of_nat (size (buildRemap lab)))
                      (setLabels (setLabels c []) (applyRemap (buildRemap lab) lab)) k lab)
  end.
Proof.
  intros Hne Hnb. unfold Run. rewrite ensureOrdered_unchanged.
  change (edges (setLabels c [])) with (edges c).
  change (numIterations (setLabels c [])) with (numIterations c).
  destruct (Z.eqb_spec (Z.of_nat (length (edges c))) 0) as [H0|_].
  - destruct (edges c); [done | simpl in H0; lia].
  - by rewrite Hnb.
Qed.

(** Whatever the endpoints, a run whose indexing succeeded propagates without
    a panic, executes the passes of its loop bound and keeps every label a
    node index. *)
Lemma propagation_safe rt e nb n :
  wfEdges e = true -> findNeighbourRanges e = Some nb ->
  (n = 0%nat \/ (0 < length nb)%nat) ->
  exists lab,
    propagateFrom e nb rt 0 n (initLabels (length nb)) = Some (lab, n) /\
    length lab = length nb /\
    Forall (fun l => 0 <= l < Z.of_nat (length nb)) lab.
Proof.
  intros Hwf Hnb Hn.
  pose proof (findNeighbourRanges_within e nb Hnb) as Hwithin.
  pose proof (findNeighbourRanges_length e nb Hnb) as Hlen.
  assert (Hcov : n = 0%nat \/ Forall (fun p => 0 <= Idx2 p < Z.of_nat (length nb)) e).
  { destruct Hn as [Hn|Hn]; [by left | right].
    rewrite Hlen in Hn. destruct (alloc_covers e Hwf Hn) as [Heq Hall].
    rewrite Hlen, Heq. eapply Forall_impl; [exact Hall|]. simpl. intros; lia. }
  destruct Hcov as [-> | Hcov].
  - exists (initLabels (length nb)). split; [done|].
    rewrite initLabels_length. split; [done|].
    unfold initLabels. apply Forall_fmap, Forall_forall. intros j Hj.
    apply elem_of_seq in Hj. simpl. lia.
  - destruct (propagateFrom_total e nb rt Hwithin Hcov n 0 (initLabels (length nb)) Hn
                (initLabels_OK nb)) as (lab & Hrun & Hlab1 & Hlab2).
    eauto.
Qed.

Lemma stepCount_cases (n : nat) iters : stepCount n iters = 0%nat \/ (0 < n)%nat.
Proof. destruct n; [by left | right; lia]. Qed.

(** ** The choice of the best label *)

Lemma SFltb_trans x y z : SFltb x y = true -> SFltb y z = true -> SFltb x z = true.
Proof.
  unfold SFltb, SFcompare.
  destruct x as [sx|sx| |sx mx ex], y as [sy|sy| |sy my ey], z as [sz|sz| |sz mz ez];
    repeat match goal with s : bool |- _ => destruct s end;
    simpl; try discriminate; try reflexivity; intros H1 H2;
    change (Pos.compare_cont Eq) with Pos.compare in *;
    revert H1 H2;
    destruct (Z.compare_spec ex ey), (Z.compare_spec ey ez), (Z.compare_spec ex ez);
    subst; try lia; try discriminate; try reflexivity;
    destruct (Pos.compare_spec mx my), (Pos.compare_spec my mz), (Pos.compare_spec mx mz);
    subst; simpl; try lia; try discriminate; try reflexivity.
Qed.

Lemma SFltb_irrefl x : SFltb x x = false.
Proof.
  unfold SFltb, SFcompare. destruct x as [s|s| |s m e]; try destruct s; try reflexivity;
    rewrite Z.compare_refl; change (Pos.compare_cont Eq) with Pos.compare;
    rewrite Pos.compare_refl; reflexivity.
Qed.

(** The comparison [<] of [float64] is transitive and irreflexive. *)
Lemma float_ltb_trans (x y z : float) :
  (x <? y)%float = true -> (y <? z)%float = true -> (x <? z)%float = true.
Proof. rewrite !ltb_spec. apply SFltb_trans. Qed.

Lemma float_ltb_irrefl (x : float) : (x <? x)%float = false.
Proof. rewrite ltb_spec. apply SFltb_irrefl. Qed.

Lemma float_ltb_false_after (x y z : float) :
  (x <? y)%float = true -> (x <? z)%float = false -> (y <? z)%float = false.
Proof.
  intros Hxy Hxz. destruct (y <? z)%float eqn:Hyz; [|done].
  by rewrite (float_ltb_trans x y z Hxy Hyz) in Hxz.
Qed.

Lemma fold_betterEntry_first_max visit : forall best,
  Forall (fun kv : Z * float =>
            (fst (fold_left betterEntry visit best) <? snd kv)%float = false) visit /\
  (fold_left betterEntry visit best = best \/
   exists l1 k v l2,
     visit = l1 ++ (k, v) :: l2 /\
     fold_left betterEntry visit best = (v, k) /\
     (fst best <? v)%float = true /\
     Forall (fun kv : Z * float => snd kv <> v) l1).
Proof.
  induction visit as [|[k0 v0] visit IH]; intros best; simpl.
  - split; [constructor | by left].
  - destruct (IH (betterEntry best (k0, v0))) as [Hmax Hcase].
    unfold betterEntry in Hcase, Hmax |- *. simpl in *.
    destruct (fst best <? v0)%float eqn:Hb; simpl in *.
    + destruct Hcase as [Heq | (l1 & k & v & l2 & Hsplit & Heq & Hlt & Hne)].
      * rewrite Heq in *. simpl. split.
        -- constructor; [apply float_ltb_irrefl | done].
        -- right. exists [], k0, v0, visit. repeat split; [done | constructor].
      * rewrite Heq in *. simpl in *. split.
        -- constructor; [|done]. simpl.
           destruct (v <? v0)%float eqn:Hv; [|done].
           pose proof (float_ltb_trans _ _ _ Hlt Hv) as Habs.
           by rewrite float_ltb_irrefl in Habs.
        -- right. exists ((k0, v0) :: l1), k, v, l2. rewrite Hsplit.
           split; [done|]. split; [done|].
           split; [by eapply float_ltb_trans|].
           constructor; [|done]. simpl. intros ->.
           by rewrite float_ltb_irrefl in Hlt.
    + destruct Hcase as [Heq | (l1 & k & v & l2 & Hsplit & Heq & Hlt & Hne)].
      * rewrite Heq in *. split; [by constructor | by left].
      * rewrite Heq in *. simpl in *. split.
        -- constructor; [|done]. simpl. by eapply float_ltb_false_after.
        -- right. exists ((k0, v0) :: l1), k, v, l2. rewrite Hsplit.
           split; [done|]. split; [done|]. split; [done|].
           constructor; [|done]. simpl. intros ->. congruence.
Qed.

(** ** Order of iteration and ties *)

Lemma isBest_Permutation l1 l2 k v : l1 ≡ₚ l2 -> isBest l1 k v -> isBest l2 k v.
Proof. intros Hp (Hin & Hlt & Hall). unfold isBest. by rewrite <- Hp. Qed.

Lemma isBestb_true l k v : isBest l k v -> isBestb l (k, v) = true.
Proof.
  intros (_ & Hlt & Hall). unfold isBestb. simpl. rewrite Hlt. simpl.
  apply forallb_forall. intros kv Hkv. apply list_elem_of_In in Hkv.
  rewrite Forall_forall in Hall. by rewrite (Hall kv Hkv).
Qed.

Lemma tieFreeb_unique l k1 v1 k2 v2 :
  tieFreeb l = true -> isBest l k1 v1 -> isBest l k2 v2 -> k1 = k2.
Proof.
  intros Hfree H1 H2. unfold tieFreeb in Hfree. rewrite forallb_forall in Hfree.
  pose proof H1 as (Hin1 & _). pose proof H2 as (Hin2 & _).
  apply list_elem_of_In in Hin1, Hin2.
  specialize (Hfree _ Hin1). rewrite forallb_forall in Hfree. specialize (Hfree _ Hin2).
  rewrite (isBestb_true _ _ _ H1), (isBestb_true _ _ _ H2) in Hfree. simpl in Hfree.
  by apply Z.eqb_eq.
Qed.

(** The loop over the tally ends on the node's own label, when no score is
    above [-Inf], or on the label of a best entry. *)
Lemma pickBest_cases visit own :
  (pickBest visit own = own /\
   Forall (fun kv : Z * float => (neg_infinity <? snd kv)%float = false) visit) \/
  (exists v, isBest visit (pickBest visit own) v).
Proof.
  unfold pickBest.
  destruct (fold_betterEntry_first_max visit (neg_infinity, own))
    as [Hmax [Heq | (l1 & k & v & l2 & Hsplit & Heq & Hlt & _)]].
  - left. rewrite Heq in *. done.
  - right. exists v. rewrite Heq in *. simpl in *. split; [|done].
    rewrite Hsplit. apply elem_of_app. right. apply elem_of_cons. by left.
Qed.

(** Without a tie the chosen label does not depend on the order in which the
    tally is visited. *)
Lemma pickBest_order_irrelevant l visit1 visit2 own :
  visit1 ≡ₚ l -> visit2 ≡ₚ l -> tieFreeb l = true ->
  pickBest visit1 own = pickBest visit2 own.
Proof.
  intros Hp1 Hp2 Hfree.
  pose proof (pickBest_cases visit1 own) as H1.
  pose proof (pickBest_cases visit2 own) as H2.
  remember (pickBest visit1 own) as k1 eqn:E1.
  remember (pickBest visit2 own) as k2 eqn:E2. clear E1 E2.
  destruct H1 as [[Hown1 Hnone1] | [v1 Hbest1]];
    destruct H2 as [[Hown2 Hnone2] | [v2 Hbest2]].
  - congruence.
  - exfalso. destruct Hbest2 as (Hin & Hlt & _).
    rewrite Hp2, <- Hp1 in Hin. rewrite Forall_forall in Hnone1.
    specialize (Hnone1 _ Hin). simpl in Hnone1. congruence.
  - exfalso. destruct Hbest1 as (Hin & Hlt & _).
    rewrite Hp1, <- Hp2 in Hin. rewrite Forall_forall in Hnone2.
    specialize (Hnone2 _ Hin). simpl in Hnone2. congruence.
  - eapply tieFreeb_unique; [exact Hfree | |].
    + eapply isBest_Permutation; [exact Hp1 | exact Hbest1].
    + eapply isBest_Permutation; [exact Hp2 | exact Hbest2].
Qed.

Lemma step_via_tally e nb rt i lab :
  step e nb rt i lab =
  match stepTally e nb rt i lab with
  | None => None
  | Some m =>
      let idx := Z.to_nat (Z.rem (Int63 (randUint64 rt i)) (Z.of_nat (length nb))) in
      match lab !! idx with
      | None => None
      | Some own =>
          Some (<[idx := pickBest (permute (rangeOrder rt i) (map_to_list m)) own]> lab)
      end
  end.
Proof.
  unfold step, stepTally. cbv zeta.
  destruct (Z.of_nat (length nb) =? 0); [done|].
  destruct (nb !! _) as [[start stop]|]; [|done].
  by destruct (tallyFrom _ _ _ _ _).
Qed.

Lemma stepTally_same_draw e nb rt1 rt2 i lab :
  Int63 (randUint64 rt1 i) = Int63 (randUint64 rt2 i) ->
  stepTally e nb rt1 i lab = stepTally e nb rt2 i lab.
Proof. intros H. unfold stepTally. by rewrite H. Qed.

(** A pass without a tie writes the same label whatever the visiting order. *)
Lemma step_order_irrelevant e nb rt1 rt2 i lab :
  Int63 (randUint64 rt1 i) = Int63 (randUint64 rt2 i) ->
  stepTieFree e nb rt1 i lab = true ->
  step e nb rt1 i lab = step e nb rt2 i lab.
Proof.
  intros Hdraw Hfree. rewrite !step_via_tally. unfold stepTieFree in Hfree.
  rewrite <- (stepTally_same_draw e nb rt1 rt2 i lab Hdraw).
  destruct (stepTally e nb rt1 i lab) as [m|]; [|done].
  cbv zeta. rewrite <- Hdraw.
  destruct (lab !! _) as [own|]; [|done].
  do 2 f_equal.
  apply (pickBest_order_irrelevant (map_to_list m)); [| | done];
    apply permute_Permutation.
Qed.

Lemma propagateFrom_order_irrelevant e nb rt1 rt2 todo : forall i lab,
  (forall j, (i <= j < i + todo)%nat ->
     Int63 (randUint64 rt1 j) = Int63 (randUint64 rt2 j)) ->
  tieFreePasses e nb rt1 i todo lab = true ->
  propagateFrom e nb rt1 i todo lab = propagateFrom e nb rt2 i todo lab.
Proof.
  induction todo as [|todo IH]; intros i lab Hdraw Hfree; simpl; [done|].
  simpl in Hfree. apply andb_true_iff in Hfree as [Hstep Hrest].
  rewrite <- (step_order_irrelevant e nb rt1 rt2 i lab); [|apply Hdraw; lia | done].
  destruct (step e nb rt1 i lab) as [lab1|]; [|done].
  rewrite (IH (S i) lab1); [done | | done].
  intros j Hj. apply Hdraw. lia.
Qed.

(** * The claims of the specification *)

(** C1 (the code departs from the claim).  [ensureOrdered] leaves the edge
    store exactly as it found it, for every instance: the mirrored and sorted
    buffer it builds is never stored.  On the store [(2,1,0.5), (0,1,1.0)] the
    edges that the later steps read are still unsorted and still lack the
    mirrors [(1,2,0.5)] and [(1,0,1.0)], while the discarded buffer holds
    them (behind four zero pairs). *)
Theorem ensureOrdered_discards_normalization :
  (forall c, edges (ensureOrdered c) = edges c) /\
  edges (ensureOrdered unsortedGraph) = [mkPair 2 1 0.5%float; mkPair 0 1 1%float] /\
  IsSorted (edges (ensureOrdered unsortedGraph)) = false /\
  existsb (fun p => (Idx1 p =? 1) && (Idx2 p =? 2))
          (edges (ensureOrdered unsortedGraph)) = false /\
  orderedBuffer (edges unsortedGraph) =
    [zeroPair; zeroPair; zeroPair; zeroPair;
     mkPair 0 1 1%float; mkPair 1 0 1%float; mkPair 1 2 0.5%float; mkPair 2 1 0.5%float] /\
  findNeighbourRanges (edges (ensureOrdered unsortedGraph)) = Some [(1, 2); (0, 0); (0, 1)].
Proof.
  split; [intros c; by rewrite ensureOrdered_unchanged|].
  repeat split; reflexivity.
Qed.

(** C2 (the code departs from the claim).  The remapping loop assigns
    [len(labelRemap)] to a raw label at every occurrence, not only at the
    first.  On the edges [(0,1,1.0), (1,0,1.0)] with one iteration and a random
    source that picks node 0, propagation leaves the raw labels [1, 1] and Run
    returns 1 with the compacted labels [1, 1]: the identifier 0 is absent.  On
    the triangle with unit weights a run leaves the raw labels [1, 1, 2], for
    which Run returns 2 and rewrites the labels to [1, 1, 1]. *)
Theorem compaction_overwrites_repeated_labels :
  Run rt0 (pairGraph 1) =
    Some (mkOutcome 1 (mkCW 1 (edges (pairGraph 1)) [1; 1]) 2 [1; 1]) /\
  buildRemap [1; 1] !! 1 = Some 1 /\
  Run (constRuntime 0 [1%nat]) (graphOf 1 triangle) =
    Some (mkOutcome 2 (mkCW 1 triangle [1; 1; 1]) 3 [1; 1; 2]) /\
  applyRemap (buildRemap [5; 7; 5]) [5; 7; 5] = [2; 1; 2].
Proof. repeat split; vm_compute; reflexivity. Qed.

(** C3 (amended).  For every edge store whose endpoints are below [2^63 - 1],
    Run returns, and its count [k] satisfies [1 <= k <= numNodes] when
    [numNodes > 0] and [k = 0] when [numNodes = 0], where [numNodes] is 0 for
    the empty store and the maximal endpoint plus one otherwise. *)
Theorem Run_cluster_count_bound rt c :
  fitsInt (edges c) = true ->
  exists out,
    Run rt c = Some out /\
    (0 < numNodes (edges c) -> 1 <= clusters out <= numNodes (edges c)) /\
    (numNodes (edges c) = 0 -> clusters out = 0) /\
    numNodes (edges c) = match edges c with [] => 0 | _ => maxIdxOf (edges c) + 1 end /\
    (forall p, p ∈ edges c -> Idx1 p <= maxIdxOf (edges c) /\ Idx2 p <= maxIdxOf (edges c)) /\
    (edges c <> [] ->
     exists p, p ∈ edges c /\ (Idx1 p = maxIdxOf (edges c) \/ Idx2 p = maxIdxOf (edges c))).
Proof.
  intros Hfit.
  destruct (decide (edges c = [])) as [He|Hne].
  - rewrite (Run_no_edges rt c He). eexists. split; [done|]. rewrite He. simpl.
    split; [lia|]. split; [done|]. split; [done|].
    split; [intros p Hp; by apply elem_of_nil in Hp | done].
  - destruct (numNodes_fits _ Hfit Hne) as (Hn & Hrange & _).
    destruct (findNeighbourRanges_total _ Hfit) as (nb & Hnb & Hlen).
    rewrite (Run_with_edges rt c nb Hne Hnb).
    destruct (propagation_safe rt (edges c) nb (stepCount (length nb) (numIterations c))
                (fitsInt_wfEdges _ Hfit) Hnb (stepCount_cases _ _))
      as (lab & -> & Hlab & _).
    eexists. split; [done|]. simpl.
    assert (Hlabne : lab <> []) by (intros ->; simpl in Hlab; lia).
    pose proof (buildRemap_size lab Hlabne) as Hsize.
    split; [lia|]. split; [lia|]. split; [destruct (edges c); done|].
    split; [intros p Hp; by apply maxIdxOf_upper|].
    intros _. apply maxIdxOf_attained; [by apply fitsInt_wfEdges | done].
Qed.

Lemma Run_cluster_count_bound_witness :
  fitsInt (edges (pairGraph 3)) = true /\
  exists out,
    Run rt0 (pairGraph 3) = Some out /\
    1 <= clusters out <= numNodes (edges (pairGraph 3)) /\
    numNodes (edges (pairGraph 3)) = 2.
Proof.
  split; [reflexivity|].
  destruct (Run_cluster_count_bound rt0 (pairGraph 3)) as (out & Hrun & Hpos & _);
    [reflexivity|].
  exists out. split; [exact Hrun|]. split; [apply Hpos|]; reflexivity.
Defined.

(** C3, as stated, fails: on the single edge [(0, 2^63, 1.0)] the node count
    [2^63 + 1] is positive, [int(numNodes)] is negative, no range is
    allocated, and Run returns 0. *)
Lemma Run_cluster_count_bound_overflow :
  exists out,
    Run rt0 (hugeEdge 1) = Some out /\
    wfEdges (edges (hugeEdge 1)) = true /\
    numNodes (edges (hugeEdge 1)) = two63 + 1 /\
    0 < numNodes (edges (hugeEdge 1)) /\
    clusters out = 0 /\
    ~ (1 <= clusters out <= numNodes (edges (hugeEdge 1))).
Proof.
  eexists. split; [reflexivity|]. repeat split; try reflexivity.
  vm_compute. intros [H _]. by apply H.
Qed.

(** C4.  On an instance with an empty edge store Run does not panic and
    returns 0, with no label left, whatever the iteration count, the labels of
    an earlier run and the random source. *)
Theorem Run_empty_store rt iters lab :
  Run rt (mkCW iters [] lab) = Some (mkOutcome 0 (mkCW iters [] []) 0 []) /\
  Run rt (NewChineseWhispers iters) = Some (mkOutcome 0 (NewChineseWhispers iters) 0 []).
Proof. split; reflexivity. Qed.

(** C5 (amended).  With [numIterations = 0] and a non-empty edge store whose
    endpoints are below [2^63 - 1], Run executes no pass, returns [numNodes],
    and leaves the labels [0, 1, ..., numNodes - 1]: node [v] carries label
    [v], so the labels are pairwise distinct. *)
Theorem Run_zero_iterations rt c :
  fitsInt (edges c) = true -> edges c <> [] -> numIterations c = 0 ->
  exists out,
    Run rt c = Some out /\
    clusters out = numNodes (edges c) /\
    passes out = 0%nat /\
    propagated out = initLabels (Z.to_nat (numNodes (edges c))) /\
    labels (instance out) = initLabels (Z.to_nat (numNodes (edges c))) /\
    NoDup (labels (instance out)) /\
    (forall u v lu lv,
       GetLabel (instance out) u = Some lu -> GetLabel (instance out) v = Some lv ->
       0 <= u -> 0 <= v -> u <> v -> lu <> lv).
Proof.
  intros Hfit Hne Hit.
  destruct (findNeighbourRanges_total _ Hfit) as (nb & Hnb & Hlen).
  rewrite (Run_with_edges rt c nb Hne Hnb), Hit, stepCount_zero. simpl.
  eexists. split; [done|]. simpl.
  destruct (buildRemap_init (length nb)) as [Hsize _].
  rewrite Hsize, applyRemap_init.
  replace (Z.to_nat (numNodes (edges c))) with (length nb) by lia.
  split; [done|]. split; [done|]. split; [done|]. split; [done|].
  split; [apply initLabels_NoDup|].
  intros u v lu lv Hu Hv Hu0 Hv0 Huv. unfold GetLabel in *. simpl in *.
  pose proof (lookup_lt_Some _ _ _ Hu) as Hul. pose proof (lookup_lt_Some _ _ _ Hv) as Hvl.
  rewrite initLabels_length in Hul, Hvl.
  rewrite initLabels_lookup in Hu, Hv by done.
  injection Hu as <-. injection Hv as <-. lia.
Qed.

Lemma Run_zero_iterations_witness :
  fitsInt (edges (singleEdge 0)) = true /\
  edges (singleEdge 0) <> [] /\
  numIterations (singleEdge 0) = 0 /\
  exists out,
    Run rt0 (singleEdge 0) = Some out /\
    clusters out = 2 /\
    passes out = 0%nat /\
    labels (instance out) = [0; 1] /\
    GetLabel (instance out) 0 <> GetLabel (instance out) 1.
Proof.
  split; [reflexivity|]. split; [discriminate|]. split; [reflexivity|].
  destruct (Run_zero_iterations rt0 (singleEdge 0))
    as (out & Hrun & Hk & Hpasses & _ & Hlab & _);
    [reflexivity | discriminate | reflexivity |].
  exists out. split; [exact Hrun|]. split; [exact Hk|]. split; [exact Hpasses|].
  split; [exact Hlab|].
  unfold GetLabel. rewrite Hlab. discriminate.
Defined.

(** C5, as stated, fails: on the single edge [(0, 2^63, 1.0)] with no
    iteration Run returns 0, not the node count [2^63 + 1]. *)
Lemma Run_zero_iterations_overflow :
  wfEdges (edges (hugeEdge 0)) = true /\
  edges (hugeEdge 0) <> [] /\
  numIterations (hugeEdge 0) = 0 /\
  exists out, Run rt0 (hugeEdge 0) = Some out /\ clusters out <> numNodes (edges (hugeEdge 0)).
Proof.
  split; [reflexivity|]. split; [discriminate|]. split; [reflexivity|].
  eexists. split; [reflexivity|]. discriminate.
Qed.

(** C6.  A node that no edge of the store leaves has an empty range, and a
    node with an empty range keeps its initial label: after any number of
    passes, under any random source and any visiting order of the tallies,
    its entry of the label array still holds its own index, also in the array
    that Run hands to compaction. *)
Theorem isolated_node_keeps_label rt c nb (v : nat) (r : Range) :
  wfEdges (edges c) = true ->
  findNeighbourRanges (edges c) = Some nb ->
  nb !! v = Some r ->
  (Forall (fun p => Idx1 p <> Z.of_nat v) (edges c) -> r.1 = r.2) /\
  (r.1 = r.2 ->
   (forall n, exists lab,
      propagateFrom (edges c) nb rt 0 n (initLabels (length nb)) = Some (lab, n) /\
      lab !! v = Some (Z.of_nat v)) /\
   (forall i lab lab', step (edges c) nb rt i lab = Some lab' -> lab' !! v = lab !! v) /\
   exists out, Run rt c = Some out /\ propagated out !! v = Some (Z.of_nat v)).
Proof.
  intros Hwf Hnb Hr.
  pose proof (lookup_lt_Some _ _ _ Hr) as Hv.
  split; [intros Hall; by eapply findNeighbourRanges_no_outgoing|].
  intros Hemp.
  assert (Hloop : forall n, exists lab,
    propagateFrom (edges c) nb rt 0 n (initLabels (length nb)) = Some (lab, n) /\
    lab !! v = Some (Z.of_nat v)).
  { intros n.
    destruct (propagation_safe rt (edges c) nb n Hwf Hnb) as (lab & Hrun & _); [right; lia|].
    exists lab. split; [done|].
    rewrite (propagateFrom_isolated _ _ _ _ _ Hr Hemp _ _ _ _ _ Hrun).
    by apply initLabels_lookup. }
  split; [exact Hloop|]. split; [intros i lab lab'; by eapply step_isolated|].
  assert (Hne : edges c <> []).
  { intros He. rewrite He in Hnb. injection Hnb as <-. simpl in Hv. lia. }
  rewrite (Run_with_edges rt c nb Hne Hnb).
  destruct (Hloop (stepCount (length nb) (numIterations c))) as (lab & -> & Hlab).
  eexists. split; [done|]. done.
Qed.

Lemma isolated_node_keeps_label_witness :
  wfEdges (edges (gapGraph 4)) = true /\
  findNeighbourRanges (edges (gapGraph 4)) = Some [(0, 1); (0, 0); (1, 2)] /\
  [(0, 1); (0, 0); (1, 2)] !! 1%nat = Some (0, 0) /\
  exists out, Run rt0 (gapGraph 4) = Some out /\ propagated out !! 1%nat = Some 1.
Proof.
  split; [reflexivity|]. split; [reflexivity|]. split; [reflexivity|].
  apply (isolated_node_keeps_label rt0 (gapGraph 4) [(0, 1); (0, 0); (1, 2)] 1 (0, 0));
    reflexivity.
Defined.

(** C7 (amended).  For an edge sequence sorted by (from, to) whose endpoints
    are below [2^63 - 1], [findNeighbourRanges] returns one range per node of
    [[0, numNodes)], with [numNodes] 0 for no edge and the maximal endpoint
    plus one otherwise.  The range of node [v] is a half-open interval of
    positions that holds exactly the positions of the edges whose [from] is
    [v]; it is empty when no edge leaves [v]; every position lies in the
    range of the node its edge leaves and in no other range. *)
Theorem findNeighbourRanges_on_sorted e :
  IsSorted e = true -> fitsInt e = true ->
  exists nb,
    findNeighbourRanges e = Some nb /\
    Z.of_nat (length nb) = numNodes e /\
    numNodes e = match e with [] => 0 | _ => maxIdxOf e + 1 end /\
    (forall p, p ∈ e -> Idx1 p <= maxIdxOf e /\ Idx2 p <= maxIdxOf e) /\
    (e <> [] -> exists p, p ∈ e /\ (Idx1 p = maxIdxOf e \/ Idx2 p = maxIdxOf e)) /\
    (forall (v : nat) r, nb !! v = Some r ->
       0 <= r.1 <= r.2 /\ r.2 <= Z.of_nat (length e) /\
       (forall j : nat,
          r.1 <= Z.of_nat j < r.2 <-> exists p, e !! j = Some p /\ Idx1 p = Z.of_nat v) /\
       (Forall (fun p => Idx1 p <> Z.of_nat v) e -> r.1 = r.2)) /\
    (forall (j : nat) p, e !! j = Some p ->
       exists r, nb !! Z.to_nat (Idx1 p) = Some r /\ r.1 <= Z.of_nat j < r.2) /\
    (forall (v1 v2 j : nat) r1 r2,
       nb !! v1 = Some r1 -> nb !! v2 = Some r2 ->
       r1.1 <= Z.of_nat j < r1.2 -> r2.1 <= Z.of_nat j < r2.2 -> v1 = v2).
Proof.
  intros Hsorted Hfit.
  pose proof (fitsInt_wfEdges _ Hfit) as Hwf.
  destruct (findNeighbourRanges_total e Hfit) as (nb & Hnb & Hlen).
  pose proof (findNeighbourRanges_sorted e nb Hsorted Hwf Hnb) as Hholds.
  exists nb. split; [done|]. split; [done|]. split.
  { destruct (decide (e = [])) as [->|Hne]; [done|].
    destruct (numNodes_fits e Hfit Hne) as (-> & _). by destruct e. }
  split; [intros p Hp; by apply maxIdxOf_upper|].
  split; [intros Hne; by apply maxIdxOf_attained|].
  split; [|split].
  - intros v r Hr.
    pose proof (findNeighbourRanges_within e nb Hnb) as Hwithin.
    unfold rangesWithin in Hwithin. rewrite Forall_forall in Hwithin.
    specialize (Hwithin r (list_elem_of_lookup_2 _ _ _ Hr)).
    split; [lia|]. split; [lia|]. split; [exact (Hholds v r Hr)|].
    intros Hall. by eapply findNeighbourRanges_no_outgoing.
  - intros j p Hp.
    apply fitsInt_Forall in Hfit. rewrite Forall_forall in Hfit.
    pose proof (Hfit p (list_elem_of_lookup_2 _ _ _ Hp)) as [Hp1 _].
    assert (Hne : e <> []) by (intros ->; done).
    assert (Hfit' : fitsInt e = true).
    { unfold fitsInt. apply forallb_forall. intros q Hq. apply list_elem_of_In in Hq.
      specialize (Hfit q Hq). unfold fitsPair. rewrite !andb_true_iff.
      repeat split; try apply Z.leb_le; try apply Z.ltb_lt; lia. }
    destruct (numNodes_fits e Hfit' Hne) as (_ & _ & Hall).
    rewrite Forall_forall in Hall.
    pose proof (Hall p (list_elem_of_lookup_2 _ _ _ Hp)) as [Hlt _].
    destruct (lookup_lt_is_Some_2 nb (Z.to_nat (Idx1 p))) as [r Hr]; [lia|].
    exists r. split; [done|]. apply (Hholds _ r Hr j).
    exists p. split; [done|]. lia.
  - intros v1 v2 j r1 r2 Hr1 Hr2 Hj1 Hj2.
    apply (Hholds v1 r1 Hr1 j) in Hj1 as (p1 & Hp1 & Hv1).
    apply (Hholds v2 r2 Hr2 j) in Hj2 as (p2 & Hp2 & Hv2).
    rewrite Hp1 in Hp2. injection Hp2 as <-. lia.
Qed.

Lemma findNeighbourRanges_on_sorted_witness :
  IsSorted triangle = true /\ fitsInt triangle = true /\
  exists nb,
    findNeighbourRanges triangle = Some nb /\
    Z.of_nat (length nb) = numNodes triangle /\
    numNodes triangle = 3 /\
    (forall (v : nat) r, nb !! v = Some r ->
       forall j : nat,
         r.1 <= Z.of_nat j < r.2 <->
         exists p, triangle !! j = Some p /\ Idx1 p = Z.of_nat v).
Proof.
  split; [reflexivity|]. split; [reflexivity|].
  destruct (findNeighbourRanges_on_sorted triangle)
    as (nb & Hnb & Hlen & _ & _ & _ & Hranges & _); [reflexivity | reflexivity |].
  exists nb. split; [exact Hnb|]. split; [exact Hlen|]. split; [reflexivity|].
  intros v r Hr. apply (Hranges v r Hr).
Defined.

(** C7, as stated, fails: the one-edge sequence [(0, 2^63, 1.0)] is sorted and
    its maximal endpoint plus one is [2^63 + 1], yet no range is returned. *)
Lemma findNeighbourRanges_on_sorted_overflow :
  IsSorted (edges (hugeEdge 0)) = true /\
  wfEdges (edges (hugeEdge 0)) = true /\
  maxIdxOf (edges (hugeEdge 0)) + 1 = two63 + 1 /\
  findNeighbourRanges (edges (hugeEdge 0)) = Some [] /\
  Z.of_nat (length (@nil Range)) <> maxIdxOf (edges (hugeEdge 0)) + 1.
Proof. repeat split; try reflexivity. discriminate. Qed.

(** C8 (amended).  When the endpoints are below [2^63 - 1] and
    [numNodes * numIterations] is below [2^63], Run returns after exactly
    [numNodes * numIterations] passes of the propagation loop (none when there
    is no node, and then no label exists).  A pass assigns one entry of the
    label array, at the node the random source picks, and leaves the others;
    pass [n] reads the array as the [n] passes before it left it, and the
    array after the last pass is the one that is compacted. *)
Theorem Run_pass_count rt c :
  fitsInt (edges c) = true ->
  0 <= numIterations c ->
  numNodes (edges c) * numIterations c < two63 ->
  exists out nb,
    Run rt c = Some out /\
    findNeighbourRanges (edges c) = Some nb /\
    Z.of_nat (passes out) = numNodes (edges c) * numIterations c /\
    (numNodes (edges c) = 0 -> passes out = 0%nat /\ labels (instance out) = []) /\
    (forall i lab lab',
       step (edges c) nb rt i lab = Some lab' ->
       exists (idx : nat) x,
         idx = Z.to_nat (Z.rem (Int63 (randUint64 rt i)) (Z.of_nat (length nb))) /\
         (idx < length lab)%nat /\ lab' = <[idx := x]> lab /\
         length lab' = length lab /\
         forall j : nat, j <> idx -> lab' !! j = lab !! j) /\
    (forall n,
       propagateFrom (edges c) nb rt 0 (S n) (initLabels (length nb)) =
       thenStep (edges c) nb rt n
         (propagateFrom (edges c) nb rt 0 n (initLabels (length nb)))) /\
    propagateFrom (edges c) nb rt 0 (passes out) (initLabels (length nb)) =
      Some (propagated out, passes out).
Proof.
  intros Hfit Hit Hbound.
  destruct (findNeighbourRanges_total _ Hfit) as (nb & Hnb & Hlen).
  assert (Hsteps : forall i lab lab',
    step (edges c) nb rt i lab = Some lab' ->
    exists (idx : nat) x,
      idx = Z.to_nat (Z.rem (Int63 (randUint64 rt i)) (Z.of_nat (length nb))) /\
      (idx < length lab)%nat /\ lab' = <[idx := x]> lab /\
      length lab' = length lab /\
      forall j : nat, j <> idx -> lab' !! j = lab !! j).
  { intros i lab lab' Hstep.
    destruct (step_single_write _ _ _ _ _ _ Hstep) as (idx & x & Hidx & Hlt & ->).
    exists idx, x. split; [done|]. split; [done|]. split; [done|].
    split; [apply length_insert|]. intros j Hj. by apply list_lookup_insert_ne. }
  assert (Hseq : forall n,
    propagateFrom (edges c) nb rt 0 (S n) (initLabels (length nb)) =
    thenStep (edges c) nb rt n (propagateFrom (edges c) nb rt 0 n (initLabels (length nb)))).
  { intros n. by rewrite propagateFrom_snoc. }
  destruct (decide (edges c = [])) as [He|Hne].
  - assert (nb = []) as -> by (rewrite He in Hnb; by injection Hnb).
    rewrite (Run_no_edges rt c He). eexists _, [].
    split; [done|]. split; [done|]. simpl.
    split; [rewrite He; simpl; lia|]. split; [done|]. split; [exact Hsteps|].
    split; [exact Hseq|]. done.
  - destruct (numNodes_fits _ Hfit Hne) as (_ & Hrange & _).
    rewrite (Run_with_edges rt c nb Hne Hnb).
    destruct (propagation_safe rt (edges c) nb (stepCount (length nb) (numIterations c))
                (fitsInt_wfEdges _ Hfit) Hnb (stepCount_cases _ _))
      as (lab & Hrun & _).
    rewrite Hrun. eexists _, nb. split; [done|]. split; [done|]. simpl.
    split.
    { rewrite stepCount_small by (rewrite ?Hlen; lia). rewrite Hlen. nia. }
    split; [lia|]. split; [exact Hsteps|]. split; [exact Hseq|]. exact Hrun.
Qed.

Lemma Run_pass_count_witness :
  fitsInt (edges (pairGraph 3)) = true /\
  0 <= numIterations (pairGraph 3) /\
  numNodes (edges (pairGraph 3)) * numIterations (pairGraph 3) < two63 /\
  exists out, Run rt0 (pairGraph 3) = Some out /\ Z.of_nat (passes out) = 6.
Proof.
  split; [reflexivity|]. split; [vm_compute; discriminate|]. split; [reflexivity|].
  destruct (Run_pass_count rt0 (pairGraph 3)) as (out & nb & Hrun & _ & Hpasses & _);
    [reflexivity | vm_compute; discriminate | reflexivity |].
  exists out. split; [exact Hrun|]. exact Hpasses.
Defined.

(** C8, as stated, fails: with [numIterations = 2^63] on the self-edge
    [(0,0,1.0)], [int(numIterations)] is negative, the loop bound is not
    positive and Run executes no pass, while [numNodes * numIterations] is
    [2^63]. *)
Lemma Run_pass_count_overflow :
  exists out,
    Run rt0 (selfLoop two63) = Some out /\
    passes out = 0%nat /\
    numNodes (edges (selfLoop two63)) * numIterations (selfLoop two63) = two63 /\
    Z.of_nat (passes out) <>
      numNodes (edges (selfLoop two63)) * numIterations (selfLoop two63).
Proof.
  eexists. split; [reflexivity|]. split; [reflexivity|]. split; [reflexivity|].
  discriminate.
Qed.

(** C9 (amended).  Two executions on the same instance whose random sources
    give the same [Int63] values end alike, whatever the orders in which the
    tallies are visited, provided that no pass meets a tie: at every pass, all
    the entries of the tally that have a score above [-Inf] which no entry
    exceeds carry one and the same label.  Both executions then panic, or both
    return the same count and leave the same labels. *)
Theorem Run_same_source_without_tie rt1 rt2 c :
  (forall i, (i < loopBound c)%nat ->
     Int63 (randUint64 rt1 i) = Int63 (randUint64 rt2 i)) ->
  tieFreeRun rt1 c = true ->
  Run rt1 c = Run rt2 c.
Proof.
  intros Hdraw Hfree. unfold Run. rewrite ensureOrdered_unchanged.
  change (edges (setLabels c [])) with (edges c).
  change (numIterations (setLabels c [])) with (numIterations c).
  destruct (Z.of_nat (length (edges c)) =? 0); [done|].
  unfold loopBound in Hdraw. unfold tieFreeRun in Hfree.
  destruct (findNeighbourRanges (edges c)) as [nb|]; [|done].
  rewrite (propagateFrom_order_irrelevant (edges c) nb rt1 rt2); [done | | done].
  intros j Hj. apply Hdraw. lia.
Qed.

Lemma Run_same_source_without_tie_witness :
  tieFreeRun (constRuntime 0 []) (graphOf 2 weightedTriangle) = true /\
  rangeOrder (constRuntime 0 []) 0%nat <> rangeOrder (constRuntime two63 [1%nat]) 0%nat /\
  Run (constRuntime 0 []) (graphOf 2 weightedTriangle) =
    Some (mkOutcome 2 (mkCW 2 weightedTriangle [1; 1; 1]) 6 [1; 1; 2]) /\
  Run (constRuntime 0 []) (graphOf 2 weightedTriangle) =
  Run (constRuntime two63 [1%nat]) (graphOf 2 weightedTriangle).
Proof.
  split; [vm_compute; reflexivity|]. split; [discriminate|].
  split; [vm_compute; reflexivity|].
  apply Run_same_source_without_tie; [|vm_compute; reflexivity].
  intros i _. reflexivity.
Defined.

(** C9, as stated, fails: on the triangle with unit weights and one
    iteration, two executions with the same random source (node 0 at every
    pass) differ when the tally of node 0, where labels 1 and 2 tie, is
    visited in two different orders. *)
Lemma Run_depends_on_visiting_order :
  randUint64 rt0 = randUint64 (constRuntime 0 [1%nat]) /\
  Run rt0 (graphOf 1 triangle) =
    Some (mkOutcome 2 (mkCW 1 triangle [2; 1; 2]) 3 [2; 1; 2]) /\
  Run (constRuntime 0 [1%nat]) (graphOf 1 triangle) =
    Some (mkOutcome 2 (mkCW 1 triangle [1; 1; 1]) 3 [1; 1; 2]) /\
  Run rt0 (graphOf 1 triangle) <> Run (constRuntime 0 [1%nat]) (graphOf 1 triangle).
Proof.
  split; [reflexivity|].
  split; [vm_compute; reflexivity|]. split; [vm_compute; reflexivity|].
  vm_compute. discriminate.
Qed.

(** The run of the counterexample does meet a tie, at its first pass. *)
Example unit_triangle_has_tie :
  tieFreeRun rt0 (graphOf 1 triangle) = false /\
  stepTieFree triangle [(0, 2); (2, 4); (4, 6)] rt0 0 [0; 1; 2] = false.
Proof. split; vm_compute; reflexivity. Qed.

(** C10.  Whenever indexing succeeded, propagation never panics and, after
    any number of passes up to the loop bound, the label array has one entry
    per node and every entry is a node index below [numNodes]; the initial
    entries are the node indices and a pass only writes a label some node
    currently carries.  The same holds of the array Run hands to compaction. *)
Theorem labels_stay_node_indices rt c nb :
  wfEdges (edges c) = true ->
  findNeighbourRanges (edges c) = Some nb ->
  (forall n, (n <= stepCount (length nb) (numIterations c))%nat ->
     exists lab,
       propagateFrom (edges c) nb rt 0 n (initLabels (length nb)) = Some (lab, n) /\
       length lab = length nb /\
       Forall (fun l => 0 <= l < Z.of_nat (length nb) /\ l < numNodes (edges c)) lab) /\
  (forall v : nat, (v < length nb)%nat -> initLabels (length nb) !! v = Some (Z.of_nat v)) /\
  (forall i lab lab',
     step (edges c) nb rt i lab = Some lab' -> forall l, l ∈ lab' -> l ∈ lab) /\
  exists out,
    Run rt c = Some out /\
    length (propagated out) = length nb /\
    Forall (fun l => 0 <= l < numNodes (edges c)) (propagated out).
Proof.
  intros Hwf Hnb.
  pose proof (findNeighbourRanges_length _ _ Hnb) as Hlen.
  assert (Hnum : (0 < length nb)%nat -> Z.of_nat (length nb) = numNodes (edges c)).
  { intros Hpos. rewrite Hlen in Hpos. destruct (alloc_covers _ Hwf Hpos) as [Heq _].
    by rewrite Hlen. }
  assert (Hloop : forall n, (n <= stepCount (length nb) (numIterations c))%nat ->
     exists lab,
       propagateFrom (edges c) nb rt 0 n (initLabels (length nb)) = Some (lab, n) /\
       length lab = length nb /\
       Forall (fun l => 0 <= l < Z.of_nat (length nb) /\ l < numNodes (edges c)) lab).
  { intros n Hn.
    destruct (propagation_safe rt (edges c) nb n Hwf Hnb) as (lab & Hrun & Hl & Hall).
    { destruct (stepCount_cases (length nb) (numIterations c)); [left; lia | by right]. }
    exists lab. split; [done|]. split; [done|].
    eapply Forall_impl; [exact Hall|]. simpl. intros l Hl'.
    split; [done|]. rewrite <- Hnum; lia. }
  split; [exact Hloop|].
  split; [intros v Hv; by apply initLabels_lookup|].
  split; [intros i lab lab'; apply step_writes_current_label|].
  destruct (decide (edges c = [])) as [He|Hne].
  - rewrite (Run_no_edges rt c He). eexists. split; [done|]. simpl.
    rewrite He in Hnb. injection Hnb as <-. done.
  - rewrite (Run_with_edges rt c nb Hne Hnb).
    destruct (Hloop _ (Nat.le_refl _)) as (lab & -> & Hl & Hall).
    eexists. split; [done|]. simpl. split; [done|].
    eapply Forall_impl; [exact Hall|]. simpl. intros; lia.
Qed.

Lemma labels_stay_node_indices_witness :
  wfEdges (edges (graphOf 2 triangle)) = true /\
  findNeighbourRanges (edges (graphOf 2 triangle)) = Some [(0, 2); (2, 4); (4, 6)] /\
  exists out,
    Run rt0 (graphOf 2 triangle) = Some out /\
    length (propagated out) = 3%nat /\
    Forall (fun l => 0 <= l < numNodes (edges (graphOf 2 triangle))) (propagated out).
Proof.
  split; [reflexivity|]. split; [reflexivity|].
  apply (labels_stay_node_indices rt0 (graphOf 2 triangle) [(0, 2); (2, 4); (4, 6)]);
    reflexivity.
Defined.

(** * Further properties of the code *)

(** ** AddEdge *)

(** X1.  Edges are stored in the order of the [AddEdge] calls, after the
    edges already there, with nothing dropped, merged or checked; the
    iteration count and the labels are not touched. *)
Theorem AddEdge_sequence c (e : Edges) :
  edges (fold_left AddEdge e c) = edges c ++ e /\
  numIterations (fold_left AddEdge e c) = numIterations c /\
  labels (fold_left AddEdge e c) = labels c /\
  Len (edges (fold_left AddEdge e c)) = Len (edges c) + Len e.
Proof.
  revert c. induction e as [|p e IH]; intros c; simpl.
  - rewrite app_nil_r. unfold Len. simpl. repeat split; lia.
  - destruct (IH (AddEdge c p)) as (He & Hn & Hl & Hlen). simpl in *.
    rewrite He, Hn, Hl. rewrite <- app_assoc. simpl.
    repeat split. unfold Len in *. rewrite !length_app. simpl. lia.
Qed.

Lemma AddEdge_labels (e : Edges) : forall c, labels (fold_left AddEdge e c) = labels c.
Proof. induction e as [|p e IH]; intros c; simpl; [done | by rewrite IH]. Qed.

(** ** Less, IsSorted, Swap *)

Lemma Less_true a b :
  Less a b = true <-> Idx1 a < Idx1 b \/ (Idx1 a = Idx1 b /\ Idx2 a < Idx2 b).
Proof.
  unfold Less. rewrite orb_true_iff, andb_true_iff.
  rewrite !Z.ltb_lt, Z.eqb_eq. tauto.
Qed.

Lemma Less_false a b :
  Less a b = false <-> Idx1 b < Idx1 a \/ (Idx1 a = Idx1 b /\ Idx2 b <= Idx2 a).
Proof.
  rewrite <- not_true_iff_false, Less_true. lia.
Qed.

(** X2.  [Less] is a strict order on the endpoint pairs: irreflexive,
    transitive and asymmetric; two edges neither of which is less than the
    other have the same endpoints, and the weight plays no part. *)
Theorem Less_strict_order :
  (forall a, Less a a = false) /\
  (forall a b c, Less a b = true -> Less b c = true -> Less a c = true) /\
  (forall a b, Less a b = true -> Less b a = false) /\
  (forall a b, Less a b = false -> Less b a = false ->
     Idx1 a = Idx1 b /\ Idx2 a = Idx2 b) /\
  (forall a b d, Less (mkPair (Idx1 a) (Idx2 a) d) b = Less a b /\
                 Less b (mkPair (Idx1 a) (Idx2 a) d) = Less b a).
Proof.
  split; [intros a; apply Less_false; lia|].
  split; [intros a b c; rewrite !Less_true; lia|].
  split; [intros a b; rewrite Less_true, Less_false; lia|].
  split; [intros a b; rewrite !Less_false; lia|].
  intros a b d. split; reflexivity.
Qed.

Lemma IsSorted_notAfter e : IsSorted e = true <-> StronglySorted notAfter e.
Proof.
  induction e as [|a e IH]; [split; [constructor | done]|].
  destruct e as [|b e].
  { split; [repeat constructor | done]. }
  change (IsSorted (a :: b :: e)) with (negb (Less b a) && IsSorted (b :: e)).
  rewrite andb_true_iff, negb_true_iff, IH. split.
  - intros [Hab Hs]. constructor; [done|].
    constructor; [done|].
    apply StronglySorted_inv in Hs as [_ Hall].
    eapply Forall_impl; [exact Hall|]. unfold notAfter in *.
    intros c. rewrite !Less_false in *. lia.
  - intros Hs. apply StronglySorted_inv in Hs as [Hs Hall].
    apply Forall_cons in Hall as [Hab _]. done.
Qed.

(** X3.  [sort.IsSorted] compares neighbours only, yet it answers for the
    whole store: it returns true exactly when no edge anywhere later in the
    store is [Less] than an earlier one. *)
Theorem IsSorted_all_pairs (e : Edges) :
  IsSorted e = true <->
  forall (i j : nat) a b,
    (i < j)%nat -> e !! i = Some a -> e !! j = Some b -> Less b a = false.
Proof.
  rewrite IsSorted_notAfter. split.
  - intros Hs. induction Hs as [|a e Hs IH Hall]; intros i j x y Hij Hi Hj; [done|].
    destruct i as [|i]; destruct j as [|j]; try lia; simpl in *.
    + injection Hi as <-. rewrite Forall_forall in Hall.
      apply Hall. by eapply list_elem_of_lookup_2.
    + eapply (IH i j); [lia | done | done].
  - intros H. induction e as [|a e IH]; [constructor|].
    constructor.
    + apply IH. intros i j x y Hij Hi Hj. apply (H (S i) (S j)); [lia | done | done].
    + apply Forall_forall. intros b Hb. apply list_elem_of_lookup_1 in Hb as [j Hj].
      apply (H 0%nat (S j)); [lia | done | done].
Qed.

(** X4.  [Swap] panics exactly when an index is outside the slice.
    Otherwise it exchanges the two elements and leaves every other position,
    the length and the multiset of edges as they were, and swapping the same
    positions again restores the slice. *)
Theorem Swap_exchanges (e : Edges) (i j : Z) :
  (Swap e i j = None <-> ~ (0 <= i < Len e /\ 0 <= j < Len e)) /\
  (forall e', Swap e i j = Some e' ->
     length e' = length e /\
     e' !! Z.to_nat i = e !! Z.to_nat j /\
     e' !! Z.to_nat j = e !! Z.to_nat i /\
     (forall k : nat, k <> Z.to_nat i -> k <> Z.to_nat j -> e' !! k = e !! k) /\
     e' ≡ₚ e /\
     Swap e' i j = Some e).
Proof.
  unfold Swap, Len.
  destruct (Z.leb_spec 0 i) as [Hi0|Hi0]; simpl.
  2:{ split; [split; [lia | done] | done]. }
  destruct (Z.ltb_spec i (Z.of_nat (length e))) as [Hi|Hi]; simpl.
  2:{ split; [split; [lia | done] | done]. }
  destruct (Z.leb_spec 0 j) as [Hj0|Hj0]; simpl.
  2:{ split; [split; [lia | done] | done]. }
  destruct (Z.ltb_spec j (Z.of_nat (length e))) as [Hj|Hj]; simpl.
  2:{ split; [split; [lia | done] | done]. }
  destruct (lookup_lt_is_Some_2 e (Z.to_nat i)) as [a Ha]; [lia|].
  destruct (lookup_lt_is_Some_2 e (Z.to_nat j)) as [b Hb]; [lia|].
  rewrite Ha, Hb. split; [split; [done | lia]|].
  intros e' He'. injection He' as <-.
  assert (Hli : (Z.to_nat i < length e)%nat) by lia.
  assert (Hlj : (Z.to_nat j < length e)%nat) by lia.
  rewrite !length_insert.
  split; [done|].
  assert (Hri : <[Z.to_nat j:=a]> (<[Z.to_nat i:=b]> e) !! Z.to_nat i = Some b).
  { destruct (decide (Z.to_nat j = Z.to_nat i)) as [Heq|Hne].
    - rewrite Heq. rewrite list_lookup_insert_eq by (by rewrite length_insert).
      rewrite Heq in Hb. congruence.
    - rewrite list_lookup_insert_ne by done. by rewrite list_lookup_insert_eq. }
  assert (Hrj : <[Z.to_nat j:=a]> (<[Z.to_nat i:=b]> e) !! Z.to_nat j = Some a).
  { rewrite list_lookup_insert_eq by (by rewrite length_insert). done. }
  split; [congruence|]. split; [congruence|].
  split; [intros k Hki Hkj; by rewrite !list_lookup_insert_ne|].
  split; [by apply Permutation_insert_swap|].
  destruct (Z.leb_spec 0 i); [|lia]. destruct (Z.ltb_spec i (Z.of_nat (length e))); [|lia].
  destruct (Z.leb_spec 0 j); [|lia]. destruct (Z.ltb_spec j (Z.of_nat (length e))); [|lia].
  simpl. rewrite Hri, Hrj. f_equal.
  apply list_eq. intros k.
  destruct (decide (k = Z.to_nat j)) as [->|Hkj].
  { rewrite list_lookup_insert_eq by (by rewrite !length_insert). done. }
  rewrite list_lookup_insert_ne by done.
  destruct (decide (k = Z.to_nat i)) as [->|Hki].
  { rewrite list_lookup_insert_eq by (by rewrite !length_insert). done. }
  by rewrite !list_lookup_insert_ne.
Qed.

(** ** The buffer ensureOrdered builds *)

Lemma appendMirrored_bind src : forall ordered,
  appendMirrored ordered src = ordered ++ (src ≫= withMirror).
Proof.
  induction src as [|p src IH]; intros ordered; simpl; [by rewrite app_nil_r|].
  rewrite IH. unfold withMirror.
  destruct (negb (Idx1 p =? Idx2 p)); by rewrite <- !app_assoc.
Qed.

Lemma insertEdge_Permutation p l : insertEdge p l ≡ₚ p :: l.
Proof.
  induction l as [|q l IH]; simpl; [done|].
  destruct (Less q p); [|done].
  rewrite IH. apply Permutation_swap.
Qed.

Lemma sortEdges_Permutation l : sortEdges l ≡ₚ l.
Proof.
  induction l as [|p l IH]; simpl; [done|].
  unfold sortEdges in *. simpl. by rewrite insertEdge_Permutation, IH.
Qed.

Lemma insertEdge_sorted p l :
  StronglySorted notAfter l -> StronglySorted notAfter (insertEdge p l).
Proof.
  induction 1 as [|q l Hs IH Hall]; simpl; [repeat constructor|].
  destruct (Less q p) eqn:Hqp.
  - constructor; [done|].
    rewrite insertEdge_Permutation. constructor; [|done].
    unfold notAfter. apply Less_true in Hqp. apply Less_false. lia.
  - constructor; [by constructor|].
    constructor; [done|].
    eapply Forall_impl; [exact Hall|]. unfold notAfter in *.
    intros r. rewrite !Less_false in *. lia.
Qed.

Lemma sortEdges_sorted l : IsSorted (sortEdges l) = true.
Proof.
  apply IsSorted_notAfter. induction l as [|p l IH]; [constructor|].
  unfold sortEdges in *. simpl. by apply insertEdge_sorted.
Qed.

Lemma withMirror_length p : (1 <= length (withMirror p) <= 2)%nat.
Proof. unfold withMirror. destruct (negb _); simpl; lia. Qed.

Lemma bind_withMirror_length (e : Edges) :
  (length e <= length (e ≫= withMirror) <= 2 * length e)%nat.
Proof.
  induction e as [|p e IH]; [simpl; lia|].
  rewrite bind_cons, length_app. pose proof (withMirror_length p).
  simpl length. lia.
Qed.

Lemma withMirror_elems p :
  p ∈ withMirror p /\ mkPair (Idx2 p) (Idx1 p) (Distance p) ∈ withMirror p.
Proof.
  unfold withMirror. destruct p as [u v d]. simpl.
  destruct (Z.eqb_spec u v) as [->|Hne]; simpl.
  - split; apply elem_of_cons; by left.
  - split; [apply elem_of_cons; by left|].
    apply elem_of_cons. right. apply elem_of_cons. by left.
Qed.

(** X5.  The buffer that [ensureOrdered] builds for an unsorted store is
    sorted by [Less] and holds every edge of the store and the mirror of
    every edge, but it is not the symmetric closure: it starts from the
    [2 * len] zero pairs of [make(Edges, len*2)], so the self-edge
    [(0,0,0.0)] is in it for every non-empty store and its length lies
    between 3 and 4 times that of the store. *)
Theorem orderedBuffer_content (e : Edges) :
  IsSorted (orderedBuffer e) = true /\
  orderedBuffer e ≡ₚ replicate (2 * length e) zeroPair ++ (e ≫= withMirror) /\
  (forall p, p ∈ e ->
     p ∈ orderedBuffer e /\ mkPair (Idx2 p) (Idx1 p) (Distance p) ∈ orderedBuffer e) /\
  (e <> [] -> zeroPair ∈ orderedBuffer e) /\
  (3 * length e <= length (orderedBuffer e) <= 4 * length e)%nat.
Proof.
  assert (Hperm : orderedBuffer e ≡ₚ replicate (2 * length e) zeroPair ++ (e ≫= withMirror)).
  { unfold orderedBuffer. by rewrite sortEdges_Permutation, appendMirrored_bind. }
  split; [apply sortEdges_sorted|]. split; [exact Hperm|]. split; [|split].
  - intros p Hp. rewrite Hperm.
    destruct (withMirror_elems p) as [H1 H2].
    split; apply elem_of_app; right; apply list_elem_of_bind; exists p; done.
  - intros Hne. rewrite Hperm. apply elem_of_app. left.
    destruct e as [|p e]; [done|]. simpl. apply elem_of_cons. by left.
  - rewrite Hperm, length_app, length_replicate.
    pose proof (bind_withMirror_length e). lia.
Qed.

(** ** findNeighbourRanges on any edge order *)

Lemma runsInv_snoc_same pre nb cur start p :
  Idx1 p = cur -> runsInv pre nb cur start -> runsInv (pre ++ [p]) nb cur start.
Proof.
  intros Heq (Hstart & Hne & Hrun & Hbefore & Hsound & Hfirst & Hlast).
  assert (Hlen1 : Z.of_nat (length (pre ++ [p])) = Z.of_nat (length pre) + 1)
    by (rewrite length_app; simpl; lia).
  assert (Hend : forall (v : nat) r, nb !! v = Some r -> r.1 < r.2 ->
            r.2 <= Z.of_nat (length pre)).
  { intros v r Hr Hlt. destruct (Z.le_gt_cases (r.2) 0) as [|Hpos]; [lia|].
    destruct (Hsound v r Hr (Z.to_nat (r.2 - 1))) as (q & Hq & _); [lia|].
    apply lookup_lt_Some in Hq. lia. }
  unfold runsInv. rewrite Hlen1.
  split; [lia|]. split; [right; lia|]. split; [|split; [|split; [|split]]].
  - intros j q Hj Hq. apply lookup_snoc_Some in Hq as [[_ Hq] | [_ <-]]; [|done].
    by eapply Hrun.
  - intros j q Hj Hq. apply lookup_snoc_Some in Hq as [[_ Hq] | [Hjl _]]; [|lia].
    by eapply Hbefore.
  - intros v r Hr j Hj. destruct (Hsound v r Hr j Hj) as (q & Hq & Hv).
    exists q. split; [by apply lookup_app_l_Some | done].
  - intros v r Hr Hlt j q Hj Hq. pose proof (Hend v r Hr Hlt).
    apply lookup_snoc_Some in Hq as [[_ Hq] | [Hjl _]]; [|lia].
    by eapply Hfirst.
  - intros v r Hr Hv j q Hq Hqv.
    apply lookup_snoc_Some in Hq as [[_ Hq] | [_ <-]]; [|congruence].
    by eapply Hlast.
Qed.

Lemma runsInv_snoc_change pre nb cur start p :
  Idx1 p <> cur -> 0 <= cur < Z.of_nat (length nb) ->
  runsInv pre nb cur start ->
  runsInv (pre ++ [p]) (<[Z.to_nat cur := (start, Z.of_nat (length pre))]> nb)
          (Idx1 p) (Z.of_nat (length pre)).
Proof.
  intros Hneq Hk (Hstart & Hne & Hrun & Hbefore & Hsound & Hfirst & Hlast).
  assert (Hlen1 : Z.of_nat (length (pre ++ [p])) = Z.of_nat (length pre) + 1)
    by (rewrite length_app; simpl; lia).
  assert (Hin : (Z.to_nat cur < length nb)%nat) by (clear -Hk; lia).
  assert (Hend : forall (v : nat) r, nb !! v = Some r -> r.1 < r.2 ->
            r.2 <= Z.of_nat (length pre)).
  { intros v r Hr Hlt. destruct (Z.le_gt_cases (r.2) 0) as [|Hpos]; [lia|].
    destruct (Hsound v r Hr (Z.to_nat (r.2 - 1))) as (q & Hq & _); [lia|].
    apply lookup_lt_Some in Hq. lia. }
  unfold runsInv. rewrite Hlen1.
  split; [lia|]. split; [right; lia|]. split; [|split; [|split; [|split]]].
  - intros j q Hj Hq. apply lookup_snoc_Some in Hq as [[Hlt _] | [_ <-]]; [lia | done].
  - intros j q Hj Hq. apply lookup_snoc_Some in Hq as [[Hlt Hq] | [Hjl _]]; [|lia].
    destruct Hne as [->|Hne]; [simpl in Hlt; lia|].
    rewrite (Hrun j q); [done | lia | done].
  - intros v r Hr j Hj.
    assert (Hold : exists q, pre !! j = Some q /\ Idx1 q = Z.of_nat v).
    { destruct (decide (Z.to_nat cur = v)) as [Hcv|Hcv].
      - subst v. rewrite list_lookup_insert_eq in Hr by exact Hin.
        injection Hr as <-. simpl in Hj.
        destruct (lookup_lt_is_Some_2 pre j) as [q Hq]; [lia|].
        exists q. split; [done|]. rewrite (Hrun j q); [lia | lia | done].
      - rewrite list_lookup_insert_ne in Hr by done. by eapply Hsound. }
    destruct Hold as (q & Hq & Hv). exists q. split; [by apply lookup_app_l_Some | done].
  - intros v r Hr Hlt j q Hj Hq.
    destruct (decide (Z.to_nat cur = v)) as [Hcv|Hcv].
    + subst v. rewrite list_lookup_insert_eq in Hr by exact Hin.
      injection Hr as <-. simpl in *.
      apply lookup_snoc_Some in Hq as [[_ Hq] | [Hjl _]]; [|lia].
      rewrite Z2Nat.id by lia. by eapply Hbefore.
    + rewrite list_lookup_insert_ne in Hr by done. pose proof (Hend v r Hr Hlt).
      apply lookup_snoc_Some in Hq as [[_ Hq] | [Hjl _]]; [|lia].
      by eapply Hfirst.
  - intros v r Hr Hv j q Hq Hqv.
    apply lookup_snoc_Some in Hq as [[Hlt Hq] | [_ <-]]; [|congruence].
    destruct (decide (Z.to_nat cur = v)) as [Hcv|Hcv].
    + subst v. rewrite list_lookup_insert_eq in Hr by exact Hin.
      injection Hr as <-. simpl.
      destruct Hne as [->|Hne]; [simpl in Hlt; lia|].
      exists (length pre - 1)%nat. split; lia.
    + rewrite list_lookup_insert_ne in Hr by done.
      eapply Hlast; [done | | done | done]. clear -Hcv Hk. lia.
Qed.

Lemma walkEdges_runs rest : forall pre nb cur start nb' cur' start',
  walkEdges rest (Z.of_nat (length pre)) nb cur start = Some (nb', cur', start') ->
  runsInv pre nb cur start -> runsInv (pre ++ rest) nb' cur' start'.
Proof.
  induction rest as [|p rest IH]; intros pre nb cur start nb' cur' start' H Hinv;
    simpl in H.
  - injection H as <- <- <-. by rewrite app_nil_r.
  - replace (Z.of_nat (length pre) + 1) with (Z.of_nat (length (pre ++ [p]))) in H
      by (rewrite length_app; simpl; lia).
    replace (pre ++ p :: rest) with ((pre ++ [p]) ++ rest) by (by rewrite <- app_assoc).
    destruct (Z.eqb_spec (Idx1 p) cur) as [Heq|Hneq].
    + eapply IH; [exact H|]. by apply runsInv_snoc_same.
    + destruct (setRange nb cur (start, Z.of_nat (length pre))) as [nb1|] eqn:Hset;
        [|discriminate].
      apply setRange_Some in Hset as [Hk ->].
      eapply IH; [exact H|]. by apply runsInv_snoc_change.
Qed.

Lemma runsInv_start (nb0 : nat) : runsInv [] (replicate nb0 (0, 0)) 0 0.
Proof.
  unfold runsInv. simpl. split; [lia|]. split; [by left|].
  split; [done|]. split; [done|]. split; [|split].
  - intros v r Hr j Hj. apply lookup_replicate in Hr as [-> _]. simpl in Hj. lia.
  - intros v r Hr Hlt. apply lookup_replicate in Hr as [-> _]. simpl in Hlt. lia.
  - done.
Qed.

(** X6.  Whatever the order of the edges, the range of a node is exactly the
    node's last run of consecutive edges.  It covers only positions of edges
    that leave the node; when it is not empty the edge just before it, if
    there is one, leaves another node; every edge that leaves the node lies
    before the end of the range, and the range is not empty when such an edge
    exists.  So the range runs from the first to the last edge of the last
    run, and the edges of an earlier run of the same node are in no range. *)
Theorem findNeighbourRanges_last_run (e : Edges) nb (v : nat) (r : Range) :
  findNeighbourRanges e = Some nb ->
  nb !! v = Some r ->
  0 <= r.1 <= r.2 /\ r.2 <= Z.of_nat (length e) /\
  (forall j : nat, r.1 <= Z.of_nat j < r.2 ->
     exists p, e !! j = Some p /\ Idx1 p = Z.of_nat v) /\
  (r.1 < r.2 ->
   forall (j : nat) p, Z.of_nat j + 1 = r.1 -> e !! j = Some p -> Idx1 p <> Z.of_nat v) /\
  (forall (j : nat) p, e !! j = Some p -> Idx1 p = Z.of_nat v ->
     Z.of_nat j < r.2 /\ r.1 < r.2).
Proof.
  intros H Hr.
  pose proof (findNeighbourRanges_within e nb H) as Hwithin.
  unfold rangesWithin in Hwithin. rewrite Forall_forall in Hwithin.
  specialize (Hwithin r (list_elem_of_lookup_2 _ _ _ Hr)).
  split; [lia|]. split; [lia|].
  unfold findNeighbourRanges in H.
  destruct (walkEdges e 0 _ 0 0) as [[[nb1 cur] start]|] eqn:Hw; [|discriminate].
  apply (walkEdges_runs e []) in Hw; [|apply runsInv_start]. simpl in Hw.
  destruct Hw as (Hstart & Hne & Hrun & Hbefore & Hsound & Hfirst & Hlast).
  destruct (Z.eqb_spec (Z.of_nat (length nb1)) 0) as [H0|H0]; simpl in H.
  { injection H as <-. apply lookup_lt_Some in Hr. lia. }
  apply setRange_Some in H as [Hk ->].
  destruct (decide (Z.to_nat cur = v)) as [Hcv|Hcv].
  - subst v. assert (Hin : (Z.to_nat cur < length nb1)%nat) by (clear -Hk; lia).
    rewrite list_lookup_insert_eq in Hr by exact Hin. injection Hr as <-. simpl.
    rewrite Z2Nat.id by lia.
    split; [|split].
    + intros j Hj. destruct (lookup_lt_is_Some_2 e j) as [q Hq]; [lia|].
      exists q. split; [done|]. rewrite (Hrun j q); [lia | lia | done].
    + intros _ j p Hj Hp. by eapply Hbefore.
    + intros j p Hp _. pose proof (lookup_lt_Some _ _ _ Hp) as Hlt.
      destruct Hne as [->|Hne]; [simpl in Hlt; lia | lia].
  - rewrite list_lookup_insert_ne in Hr by done.
    assert (Hv : Z.of_nat v <> cur) by (clear -Hcv Hk; lia).
    split; [by apply (Hsound v)|]. split; [by apply (Hfirst v)|].
    intros j p Hp Hpv. destruct (Hlast v r Hr Hv j p Hp Hpv) as (j' & Hj & Hj'). lia.
Qed.

Lemma findNeighbourRanges_last_run_witness :
  findNeighbourRanges twoRuns = Some [(1, 3); (0, 1); (0, 0)] /\
  [(1, 3); (0, 1); (0, 0)] !! 0%nat = Some (1, 3) /\
  (forall j : nat, 1 <= Z.of_nat j < 3 ->
     exists p, twoRuns !! j = Some p /\ Idx1 p = 0) /\
  (forall (j : nat) p, Z.of_nat j + 1 = 1 -> twoRuns !! j = Some p -> Idx1 p <> 0) /\
  (forall (j : nat) p, twoRuns !! j = Some p -> Idx1 p = 0 -> Z.of_nat j < 3).
Proof.
  split; [reflexivity|]. split; [reflexivity|].
  destruct (findNeighbourRanges_last_run twoRuns [(1, 3); (0, 1); (0, 0)] 0 (1, 3))
    as (_ & _ & Hsound & Hfirst & Hlast); [reflexivity | reflexivity |].
  split; [exact Hsound|]. split; [apply Hfirst; simpl; lia|].
  intros j p Hp Hv. by apply (Hlast j p Hp Hv).
Defined.

(** ** When Run panics *)

Lemma walkEdges_no_ranges rest : forall i start,
  (Forall (fun p => Idx1 p = 0) rest /\ walkEdges rest i [] 0 start = Some ([], 0, start)) \/
  (Exists (fun p => Idx1 p <> 0) rest /\ walkEdges rest i [] 0 start = None).
Proof.
  induction rest as [|p rest IH]; intros i start; simpl.
  - left. split; [constructor | done].
  - destruct (Z.eqb_spec (Idx1 p) 0) as [Heq|Hne].
    + destruct (IH (i + 1) start) as [[Hall ->] | [Hex ->]].
      * left. split; [by constructor | done].
      * right. split; [by apply Exists_cons_tl | done].
    + right. split; [by apply Exists_cons_hd | done].
Qed.

(** X7.  On edges whose endpoints are [uint64] values, Run panics in exactly
    one situation: some endpoint is [2^63 - 1] or more, so that no range is
    allocated, and some edge leaves a node other than 0.  In every other case
    it returns, whatever the random source and the visiting orders. *)
Theorem Run_panics_iff rt c :
  wfEdges (edges c) = true ->
  (Run rt c = None <->
   two63 - 1 <= maxIdxOf (edges c) /\ exists p, p ∈ edges c /\ Idx1 p <> 0).
Proof.
  intros Hwf.
  destruct (decide (edges c = [])) as [He|Hne].
  { rewrite (Run_no_edges rt c He), He. split; [done|].
    intros (_ & p & Hp & _). by apply elem_of_nil in Hp. }
  set (L := Z.to_nat (int_of_u64 (numNodes (edges c)))).
  destruct (decide (0 < L)%nat) as [Hpos|Hzero].
  - destruct (alloc_covers _ Hwf Hpos) as [HL Hall]. fold L in HL.
    destruct (walkEdges_total (edges c) 0 (replicate L (0, 0)) 0 0)
      as (nb1 & cur & start & Hw & Hcur).
    { rewrite length_replicate, HL. eapply Forall_impl; [exact Hall|]. simpl. intros; lia. }
    { rewrite length_replicate. lia. }
    assert (Hnb : exists nb, findNeighbourRanges (edges c) = Some nb).
    { unfold findNeighbourRanges. fold L. rewrite Hw.
      pose proof (walkEdges_length _ _ _ _ _ _ _ _ Hw) as Hl.
      rewrite length_replicate in Hl, Hcur.
      destruct (negb _); [|by eauto].
      rewrite setRange_ok by lia. eauto. }
    destruct Hnb as [nb Hnb].
    rewrite (Run_with_edges rt c nb Hne Hnb).
    destruct (propagation_safe rt (edges c) nb (stepCount (length nb) (numIterations c))
                Hwf Hnb (stepCount_cases _ _)) as (lab & -> & _).
    split; [done|]. intros [Hbig _]. exfalso.
    destruct (maxIdxOf_attained _ Hwf Hne) as (p & Hp & Hmax).
    rewrite Forall_forall in Hall. specialize (Hall p Hp).
    assert (Hn : numNodes (edges c) < two63).
    { subst L. revert Hpos. unfold int_of_u64.
      destruct (Z.ltb_spec (numNodes (edges c)) two63); [done|].
      assert (0 <= numNodes (edges c) < two64).
      { destruct (edges c); [done|]. apply Z.mod_pos_bound. reflexivity. }
      unfold two64, two63 in *. lia. }
    lia.
  - assert (HL : L = 0%nat) by lia.
    assert (Hbig : two63 - 1 <= maxIdxOf (edges c)).
    { destruct (Z.le_gt_cases (two63 - 1) (maxIdxOf (edges c))) as [|Hsmall]; [done|].
      exfalso. pose proof (maxIdxOf_nonneg (edges c)) as H0.
      assert (Hn : numNodes (edges c) = maxIdxOf (edges c) + 1).
      { destruct (edges c); [done|]. unfold numNodes, u64. apply Z.mod_small.
        unfold two63, two64 in *. lia. }
      subst L. rewrite Hn, int_of_u64_small in HL by lia. lia. }
    unfold Run. rewrite ensureOrdered_unchanged.
    change (edges (setLabels c [])) with (edges c).
    change (numIterations (setLabels c [])) with (numIterations c).
    destruct (Z.eqb_spec (Z.of_nat (length (edges c))) 0) as [Hl0|_].
    { destruct (edges c); [done | simpl in Hl0; lia]. }
    unfold findNeighbourRanges. fold L. rewrite HL. simpl replicate.
    destruct (walkEdges_no_ranges (edges c) 0 0) as [[Hall ->] | [Hex ->]].
    + simpl. split; [done|]. intros (_ & p & Hp & Hp0).
      rewrite Forall_forall in Hall. by specialize (Hall p Hp).
    + split; [|done]. intros _. split; [done|].
      apply Exists_exists in Hex as (p & Hp & Hp0). eauto.
Qed.

Lemma Run_panics_iff_witness :
  wfEdges (edges (graphOf 1 [mkPair 1 two63 1%float])) = true /\
  Run rt0 (graphOf 1 [mkPair 1 two63 1%float]) = None /\
  Run rt0 (hugeEdge 1) <> None.
Proof.
  split; [reflexivity|]. split.
  - apply (Run_panics_iff rt0 (graphOf 1 [mkPair 1 two63 1%float])); [reflexivity|].
    split; [vm_compute; discriminate|].
    exists (mkPair 1 two63 1%float). split; [apply elem_of_cons; by left | discriminate].
  - intros H. apply (Run_panics_iff rt0 (hugeEdge 1)) in H as (_ & p & Hp & Hp0);
      [|reflexivity].
    apply elem_of_cons in Hp as [->|Hp]; [by apply Hp0 | by apply elem_of_nil in Hp].
Defined.

(** ** Compaction, as the loop computes it *)

Lemma fold_remap_dom lab : forall m : gmap Z Z,
  dom (fold_left remapStep lab m) = dom m ∪ labelSet lab.
Proof.
  unfold labelSet.
  induction lab as [|l lab IH]; intros m; simpl.
  - by rewrite (right_id_L ∅ (∪)).
  - rewrite IH. unfold remapStep. rewrite dom_insert_L.
    by rewrite (comm_L (∪) {[l]}), (assoc_L (∪)).
Qed.

Lemma buildRemap_dom lab : dom (buildRemap lab) = labelSet lab.
Proof.
  unfold buildRemap. rewrite fold_remap_dom, dom_empty_L.
  by rewrite (left_id_L ∅ (∪)).
Qed.

Lemma buildRemap_count lab : size (buildRemap lab) = size (labelSet lab).
Proof. by rewrite <- buildRemap_dom, size_dom. Qed.

Lemma fold_remap_untouched post : forall (m : gmap Z Z) l,
  l ∉ post -> fold_left remapStep post m !! l = m !! l.
Proof.
  induction post as [|x post IH]; intros m l Hl; simpl; [done|].
  apply not_elem_of_cons in Hl as [Hne Hl].
  rewrite IH by done. unfold remapStep. by rewrite lookup_insert_ne.
Qed.

(** The identifier of a raw label is the number of distinct raw labels before
    its last occurrence. *)
Lemma buildRemap_last pre l post :
  l ∉ post ->
  buildRemap (pre ++ l :: post) !! l = Some (Z.of_nat (size (labelSet pre))).
Proof.
  intros Hl. unfold buildRemap. rewrite fold_left_app. simpl.
  rewrite fold_remap_untouched by done.
  unfold remapStep. rewrite lookup_insert_eq.
  do 2 f_equal. apply (buildRemap_count pre).
Qed.

Lemma applyRemap_lookup m lab (i : nat) l :
  lab !! i = Some l -> applyRemap m lab !! i = Some (default 0 (m !! l)).
Proof. intros Hi. unfold applyRemap. by rewrite list_lookup_fmap, Hi. Qed.

(** X8.  The count Run returns is the number of distinct labels that
    propagation left, and the label array it leaves is the propagated array
    pushed through the remapping, entry by entry. *)
Theorem Run_counts_distinct_labels rt c out :
  Run rt c = Some out ->
  clusters out = Z.of_nat (size (labelSet (propagated out))) /\
  labels (instance out) = applyRemap (buildRemap (propagated out)) (propagated out) /\
  length (labels (instance out)) = length (propagated out).
Proof.
  unfold Run. rewrite ensureOrdered_unchanged. intros H.
  destruct (Z.of_nat (length (edges (setLabels c []))) =? 0).
  { injection H as <-. done. }
  destruct (findNeighbourRanges _) as [nb|]; [|discriminate].
  destruct (propagateFrom _ _ _ _ _ _) as [[lab k]|]; [|discriminate].
  injection H as <-. simpl. rewrite buildRemap_count.
  split; [done|]. split; [done|]. unfold applyRemap. by rewrite length_fmap.
Qed.

Lemma Run_counts_distinct_labels_witness :
  Run (constRuntime 0 [1%nat]) (graphOf 1 triangle) =
    Some (mkOutcome 2 (mkCW 1 triangle [1; 1; 1]) 3 [1; 1; 2]) /\
  2 = Z.of_nat (size (labelSet [1; 1; 2])).
Proof.
  split; [vm_compute; reflexivity|].
  apply (Run_counts_distinct_labels (constRuntime 0 [1%nat]) (graphOf 1 triangle)
           (mkOutcome 2 (mkCW 1 triangle [1; 1; 1]) 3 [1; 1; 2])).
  vm_compute. reflexivity.
Defined.

Lemma compaction_numbers_tail (pre post : list Z) (l : Z) (i : nat) :
  l ∉ post ->
  (pre ++ l :: post) !! i = Some l ->
  applyRemap (buildRemap (pre ++ l :: post)) (pre ++ l :: post) !! i =
    Some (Z.of_nat (size (labelSet pre))).
Proof.
  intros Hl Hi. rewrite (applyRemap_lookup _ _ _ _ Hi).
  by rewrite buildRemap_last.
Qed.

(** X9.  The remapping loop numbers a raw label by its last occurrence: every
    node that carries the raw label [l] receives the number of distinct raw
    labels found before the last position that holds [l] (which counts [l]
    itself when [l] also occurs earlier). *)
Theorem compaction_numbers_by_last_occurrence (pre post : list Z) (l : Z) (i : nat) :
  l ∉ post ->
  (pre ++ l :: post) !! i = Some l ->
  applyRemap (buildRemap (pre ++ l :: post)) (pre ++ l :: post) !! i =
    Some (Z.of_nat (size (labelSet pre))).
Proof.
  apply compaction_numbers_tail.
Qed.

Lemma compaction_numbers_by_last_occurrence_witness :
  applyRemap (buildRemap ([5; 7] ++ 5 :: [7])) ([5; 7] ++ 5 :: [7]) !! 0%nat =
    Some (Z.of_nat (size (labelSet [5; 7]))).
Proof.
  apply (compaction_numbers_by_last_occurrence [5; 7] [7] 5 0).
  - intros H. apply elem_of_cons in H as [H|H]; [discriminate | by apply elem_of_nil in H].
  - reflexivity.
Defined.

Lemma labelSet_take_NoDup lab (i : nat) :
  NoDup lab -> (i <= length lab)%nat -> size (labelSet (take i lab)) = i.
Proof.
  intros Hnd Hi. unfold labelSet. rewrite size_list_to_set.
  - rewrite length_take. lia.
  - rewrite <- (take_drop i lab) in Hnd. by apply NoDup_app in Hnd as [? _].
Qed.

(** X10.  Every compacted label lies between 0 and the returned count [k],
    both included (the loop can hand out [k] itself).  When the raw labels
    are pairwise distinct the compacted labels are [0, 1, ..., n - 1] in node
    order. *)
Theorem compacted_labels_range (lab : list Z) :
  Forall (fun x => 0 <= x <= Z.of_nat (size (buildRemap lab)))
         (applyRemap (buildRemap lab) lab) /\
  (NoDup lab -> applyRemap (buildRemap lab) lab = Z.of_nat <$> seq 0 (length lab)).
Proof.
  split.
  - apply Forall_lookup. intros i x Hx.
    unfold applyRemap in Hx. rewrite list_lookup_fmap in Hx.
    destruct (lab !! i) as [l|] eqn:Hi; [|done]. simpl in Hx. injection Hx as <-.
    destruct (list_elem_of_split_r lab l) as (pre & post & Heq & Hpost).
    { by eapply list_elem_of_lookup_2. }
    rewrite buildRemap_count. subst lab. rewrite buildRemap_last by done. simpl.
    split; [lia|].
    apply inj_le, subseteq_size. unfold labelSet.
    intros y Hy. apply elem_of_list_to_set. apply elem_of_list_to_set in Hy.
    apply elem_of_app. by left.
  - intros Hnd. apply list_eq. intros i.
    rewrite list_lookup_fmap.
    destruct (lab !! i) as [l|] eqn:Hi.
    + pose proof (lookup_lt_Some _ _ _ Hi) as Hlt.
      rewrite lookup_seq_lt by done. simpl.
      pose proof (take_drop_middle lab i l Hi) as Hsplit.
      assert (Hpost : l ∉ drop (S i) lab).
      { rewrite <- Hsplit in Hnd. apply NoDup_app in Hnd as (_ & _ & Hnd).
        by apply NoDup_cons in Hnd as [? _]. }
      rewrite <- Hsplit at 1 2.
      rewrite (compaction_numbers_tail (take i lab) (drop (S i) lab) l i Hpost).
      * by rewrite labelSet_take_NoDup by (done || lia).
      * by rewrite Hsplit.
    + unfold applyRemap. rewrite list_lookup_fmap, Hi.
      apply lookup_ge_None in Hi. by rewrite lookup_seq_ge.
Qed.

(** ** Reading the labels *)

(** X11.  Before any Run, [GetLabel] panics at every index.  After a Run on
    edges whose endpoints are below [2^63 - 1], [GetLabels] has one entry per
    node and [GetLabel] returns a label exactly for the indices below
    [numNodes]; every other index panics. *)
Theorem GetLabel_defined_on_nodes rt c :
  fitsInt (edges c) = true ->
  (forall iters (e : Edges) idx, GetLabel (graphOf iters e) idx = None) /\
  exists out,
    Run rt c = Some out /\
    Z.of_nat (length (GetLabels (instance out))) = numNodes (edges c) /\
    forall idx, 0 <= idx ->
      (GetLabel (instance out) idx = None <-> numNodes (edges c) <= idx).
Proof.
  intros Hfit. split.
  { intros iters e idx. unfold GetLabel, graphOf.
    by rewrite (AddEdge_labels e (NewChineseWhispers iters)). }
  assert (Hgoal : forall out, Run rt c = Some out ->
            Z.of_nat (length (propagated out)) = numNodes (edges c) ->
            length (labels (instance out)) = length (propagated out) ->
            exists out', Run rt c = Some out' /\
              Z.of_nat (length (GetLabels (instance out'))) = numNodes (edges c) /\
              forall idx, 0 <= idx ->
                (GetLabel (instance out') idx = None <-> numNodes (edges c) <= idx)).
  { intros out Hrun Hlen Hsame. exists out. split; [done|].
    unfold GetLabels, GetLabel. rewrite Hsame. split; [done|].
    intros idx Hidx. rewrite lookup_ge_None. lia. }
  destruct (decide (edges c = [])) as [He|Hne].
  - eapply Hgoal; [by apply Run_no_edges | by rewrite He | done].
  - destruct (findNeighbourRanges_total _ Hfit) as (nb & Hnb & Hlen).
    destruct (propagation_safe rt (edges c) nb (stepCount (length nb) (numIterations c))
                (fitsInt_wfEdges _ Hfit) Hnb (stepCount_cases _ _))
      as (lab & Hrun & Hlab & _).
    eapply Hgoal.
    + rewrite (Run_with_edges rt c nb Hne Hnb), Hrun. reflexivity.
    + simpl. lia.
    + simpl. unfold applyRemap. by rewrite length_fmap.
Qed.

Lemma GetLabel_defined_on_nodes_witness :
  fitsInt (edges (gapGraph 1)) = true /\
  exists out,
    Run rt0 (gapGraph 1) = Some out /\
    Z.of_nat (length (GetLabels (instance out))) = 3 /\
    GetLabel (instance out) 3 = None.
Proof.
  split; [reflexivity|].
  destruct (GetLabel_defined_on_nodes rt0 (gapGraph 1)) as (_ & out & Hrun & Hlen & Hget);
    [reflexivity|].
  exists out. split; [exact Hrun|]. split; [exact Hlen|].
  apply Hget; [lia | vm_compute; discriminate].
Defined.

(** ** Running again *)

Lemma Run_reads_edges_and_count rt c l :
  Run rt (mkCW (numIterations c) (edges c) l) = Run rt c.
Proof. unfold Run. by rewrite !ensureOrdered_unchanged. Qed.

Lemma Run_instance rt c out :
  Run rt c = Some out ->
  instance out = mkCW (numIterations c) (edges c) (labels (instance out)).
Proof.
  unfold Run. rewrite ensureOrdered_unchanged. intros H.
  destruct (Z.of_nat (length (edges (setLabels c []))) =? 0).
  { injection H as <-. done. }
  destruct (findNeighbourRanges _) as [nb|]; [|discriminate].
  destruct (propagateFrom _ _ _ _ _ _) as [[lab k]|]; [|discriminate].
  injection H as <-. done.
Qed.

(** X12.  Run changes nothing but the labels: the edge store and the
    iteration count of the instance it leaves are those it found.  It reads no
    label of an earlier run, so a second Run on the instance it left, under
    the same random values and visiting orders, returns the same count and
    leaves the same labels. *)
Theorem Run_again rt c out :
  Run rt c = Some out ->
  edges (instance out) = edges c /\
  numIterations (instance out) = numIterations c /\
  (forall l, Run rt (setLabels c l) = Some out) /\
  Run rt (instance out) = Some out.
Proof.
  intros Hrun. pose proof (Run_instance rt c out Hrun) as Hinst.
  split; [by rewrite Hinst|]. split; [by rewrite Hinst|].
  split.
  - intros l. unfold setLabels. by rewrite Run_reads_edges_and_count.
  - rewrite Hinst. by rewrite Run_reads_edges_and_count.
Qed.

Lemma Run_again_witness :
  Run rt0 (pairGraph 1) =
    Some (mkOutcome 1 (mkCW 1 (edges (pairGraph 1)) [1; 1]) 2 [1; 1]) /\
  Run rt0 (mkCW 1 (edges (pairGraph 1)) [1; 1]) =
    Some (mkOutcome 1 (mkCW 1 (edges (pairGraph 1)) [1; 1]) 2 [1; 1]).
Proof.
  split; [vm_compute; reflexivity|].
  apply (Run_again rt0 (pairGraph 1)
           (mkOutcome 1 (mkCW 1 (edges (pairGraph 1)) [1; 1]) 2 [1; 1])).
  vm_compute. reflexivity.
Defined.

(** ** The tally of a node *)

Lemma tallyFrom_Some_le rest : forall n stop (lab : list Z) m m',
  tallyFrom rest n stop lab m = Some m' -> n <= stop.
Proof.
  induction rest as [|p rest IH]; intros n stop lab m m' H; simpl in H.
  - destruct (Z.eqb_spec n stop); [lia | discriminate].
  - destruct (Z.eqb_spec n stop); [lia|].
    destruct (lab !! Z.to_nat (Idx2 p)); [|discriminate].
    apply IH in H. lia.
Qed.

Lemma weightsFor_cons lab k p (es : Edges) :
  weightsFor lab k (p :: es) =
    if decide (lab !! Z.to_nat (Idx2 p) = Some k)
    then Distance p :: weightsFor lab k es
    else weightsFor lab k es.
Proof. unfold weightsFor. simpl. by destruct (decide _). Qed.

Lemma tallyFrom_sums rest : forall n stop (lab : list Z) m m' k,
  tallyFrom rest n stop lab m = Some m' ->
  m' !! k =
    match weightsFor lab k (take (Z.to_nat (stop - n)) rest) with
    | [] => m !! k
    | ws => Some (fold_left PrimFloat.add ws (default 0%float (m !! k)))
    end.
Proof.
  induction rest as [|p rest IH]; intros n stop lab m m' k H.
  - simpl in H. destruct (n =? stop); [|discriminate]. injection H as <-.
    by rewrite take_nil.
  - pose proof (tallyFrom_Some_le _ _ _ _ _ _ H) as Hle. simpl in H.
    destruct (Z.eqb_spec n stop) as [->|Hne].
    { injection H as <-. by rewrite Z.sub_diag. }
    destruct (lab !! Z.to_nat (Idx2 p)) as [l|] eqn:Hl; [|discriminate].
    rewrite (IH _ _ _ _ _ k H).
    replace (Z.to_nat (stop - n)) with (S (Z.to_nat (stop - (n + 1)))) by lia.
    rewrite firstn_cons, weightsFor_cons, Hl.
    unfold addCount. destruct (decide (Some l = Some k)) as [Heq|Hneq].
    + injection Heq as ->. rewrite lookup_insert_eq. simpl.
      by destruct (weightsFor lab k _).
    + by rewrite lookup_insert_ne by congruence.
Qed.

(** X13.  The tally of a node, when its loop ends, has one entry per label
    carried by the far ends of the edges of the node's range and no other
    entry; the entry of label [k] is the sum, taken from [0.0] in edge order,
    of the weights of the edges whose far end carries [k]. *)
Theorem tally_sums_weights_by_label (e : Edges) (lab : list Z) (start stop : Z) m :
  tallyFrom (drop (Z.to_nat start) e) start stop lab ∅ = Some m ->
  start <= stop /\
  forall k,
    m !! k =
      match weightsFor lab k (take (Z.to_nat (stop - start)) (drop (Z.to_nat start) e)) with
      | [] => None
      | ws => Some (fold_left PrimFloat.add ws 0%float)
      end.
Proof.
  intros H. split; [by eapply tallyFrom_Some_le|].
  intros k. rewrite (tallyFrom_sums _ _ _ _ _ _ k H). by rewrite lookup_empty.
Qed.

Lemma tally_sums_weights_by_label_witness :
  tallyFrom (drop (Z.to_nat 0) triangle) 0 2 [2; 1; 1] ∅ =
    Some (<[1 := 2%float]> ∅) /\
  (<[1 := 2%float]> (∅ : gmap Z float)) !! 1 =
    Some (fold_left PrimFloat.add [1%float; 1%float] 0%float).
Proof.
  split; [vm_compute; reflexivity|].
  destruct (tally_sums_weights_by_label triangle [2; 1; 1] 0 2 (<[1 := 2%float]> ∅))
    as [_ Hsum]; [vm_compute; reflexivity|].
  exact (Hsum 1).
Defined.

(** ** What propagation can and cannot do to the labels *)

Lemma propagateFrom_keeps_labels e nb rt todo : forall i lab lab' k,
  propagateFrom e nb rt i todo lab = Some (lab', k) ->
  length lab' = length lab /\ forall l, l ∈ lab' -> l ∈ lab.
Proof.
  induction todo as [|todo IH]; intros i lab lab' k H; simpl in H.
  - by injection H as <- _.
  - destruct (step e nb rt i lab) as [lab1|] eqn:Hstep; [|discriminate].
    destruct (propagateFrom e nb rt (S i) todo lab1) as [[lab2 k2]|] eqn:Hrec; [|discriminate].
    injection H as <- _.
    destruct (IH _ _ _ _ Hrec) as [Hlen Hin].
    split; [by rewrite Hlen, (step_length _ _ _ _ _ _ Hstep)|].
    intros l Hl. eapply step_writes_current_label; [exact Hstep|]. by apply Hin.
Qed.

(** X14.  Propagation only merges: after any number of passes from any label
    array, the array has the same length, every label in it was already in
    use before, and the number of distinct labels, which is what Run counts,
    has not grown. *)
Theorem propagation_only_merges e nb rt (i todo : nat) (lab lab' : list Z) (k : nat) :
  propagateFrom e nb rt i todo lab = Some (lab', k) ->
  length lab' = length lab /\
  (forall l, l ∈ lab' -> l ∈ lab) /\
  (size (buildRemap lab') <= size (buildRemap lab))%nat.
Proof.
  intros H. destruct (propagateFrom_keeps_labels _ _ _ _ _ _ _ _ H) as [Hlen Hin].
  split; [done|]. split; [done|].
  rewrite !buildRemap_count. apply subseteq_size. unfold labelSet.
  intros l Hl. apply elem_of_list_to_set. apply elem_of_list_to_set in Hl. by apply Hin.
Qed.

Lemma propagation_only_merges_witness :
  propagateFrom triangle [(0, 2); (2, 4); (4, 6)] rt0 0 3 [0; 1; 2] = Some ([2; 1; 2], 3%nat) /\
  (size (buildRemap [2%Z; 1%Z; 2%Z]) <= size (buildRemap [0%Z; 1%Z; 2%Z]))%nat.
Proof.
  split; [vm_compute; reflexivity|].
  apply (propagation_only_merges triangle [(0, 2); (2, 4); (4, 6)] rt0 0 3
           [0; 1; 2] [2; 1; 2] 3).
  vm_compute. reflexivity.
Defined.

(** X15.  A label array in which every node carries the same label is a
    fixed point: no pass, under any random source and any visiting order,
    changes it. *)
Theorem single_label_is_stable e nb rt (i todo n : nat) (l : Z) (lab' : list Z) (k : nat) :
  propagateFrom e nb rt i todo (replicate n l) = Some (lab', k) ->
  lab' = replicate n l.
Proof.
  intros H. destruct (propagateFrom_keeps_labels _ _ _ _ _ _ _ _ H) as [Hlen Hin].
  symmetry. apply replicate_as_Forall. rewrite length_replicate in Hlen.
  split; [done|]. apply Forall_forall. intros x Hx.
  apply Hin in Hx. by apply elem_of_replicate_inv in Hx.
Qed.

Lemma single_label_is_stable_witness :
  propagateFrom triangle [(0, 2); (2, 4); (4, 6)] rt0 0 5 (replicate 3 7) =
    Some ([7; 7; 7], 5%nat) /\
  [7; 7; 7] = replicate 3 7.
Proof.
  split; [vm_compute; reflexivity|].
  apply (single_label_is_stable triangle [(0, 2); (2, 4); (4, 6)] rt0 0 5 3 7 [7; 7; 7] 5).
  vm_compute. reflexivity.
Defined.

(** ** The chosen label, characterised *)

(** X16.  The label chosen for a node is the first maximum of its tally in
    visiting order: either no entry has a score above [-Inf] (an empty tally,
    or only [-Inf] and NaN scores) and the node keeps its own label, or the
    chosen label belongs to an entry whose score is above [-Inf], is exceeded
    by no entry of the tally, and is the score of no entry visited earlier. *)
Theorem pickBest_first_maximum (visit : list (Z * float)) (own : Z) :
  (pickBest visit own = own /\
   Forall (fun kv : Z * float => (neg_infinity <? snd kv)%float = false) visit) \/
  (exists l1 k v l2,
     visit = l1 ++ (k, v) :: l2 /\
     pickBest visit own = k /\
     (neg_infinity <? v)%float = true /\
     Forall (fun kv : Z * float => (v <? snd kv)%float = false) visit /\
     Forall (fun kv : Z * float => snd kv <> v) l1).
Proof.
  unfold pickBest.
  destruct (fold_betterEntry_first_max visit (neg_infinity, own))
    as [Hmax [Heq | (l1 & k & v & l2 & Hsplit & Heq & Hlt & Hne)]].
  - left. rewrite Heq in *. done.
  - right. exists l1, k, v, l2. rewrite Heq in *. done.
Qed.
